(** * Hearings AI: access policy, snippets, citation extraction and chunking

    A shallow embedding of the pure core of the repository:

    - [src/api/src/models.py]            the data model (module [Models]);
    - [src/api/src/auth/__init__.py]     [get_current_user], [can_access_document],
                                         [build_search_filter] (module [Auth]),
                                         [require_roles], [require_document_access]
                                         (module [Deps]);
    - [src/api/src/main.py]              the guard of [ingest_document] (module [Deps]),
                                         the filter of [search_documents_endpoint]
                                         (module [SearchFilter]);
    - [src/api/src/search/service.py]    [highlight_snippet] (module [Search]),
                                         the filter of [search_documents]
                                         (module [SearchFilter]);
    - [src/scripts/ingest-documents.py]  [extract_regulatory_citations], [chunk_text]
                                         (module [Ingest]), [extract_text_from_pdf],
                                         [generate_embeddings], the batches and the
                                         ids of [index_chunks], [process_document]
                                         (module [Pipeline]).

    Python [str] is [string] (a sequence of code points below 256), Python
    [int] is [Z], [len] is a [nat], [Optional[T]] is [option T], a [dict]
    is a [gmap], and a raised exception is a constructor of [Outcome]. *)

From Stdlib Require Import ZArith Lia Ascii String Sorted.
From stdpp Require Import base option list gmap strings pretty.

(** ** Python string primitives *)

Module Py.

(** [str.isspace] on one code point below 256, which is also the class [\s]
    of a [str] pattern. *)
Definition isspace (c : ascii) : bool :=
  let n := Ascii.nat_of_ascii c in
  ((9 <=? n) && (n <=? 13)) || ((28 <=? n) && (n <=? 32))
  || (n =? 133) || (n =? 160).

(** [bool(s)] for a string: the empty string is falsy. *)
Definition truthy (s : string) : bool :=
  match s with EmptyString => false | String _ _ => true end.

(** [sep.join(parts)]. *)
Fixpoint join (sep : string) (parts : list string) : string :=
  match parts with
  | [] => ""
  | [x] => x
  | x :: rest => x +:+ sep +:+ join sep rest
  end.

(** [x in xs] for a list of strings. *)
Definition contains (x : string) (xs : list string) : bool :=
  bool_decide (x ∈ xs).

Fixpoint lstrip (s : string) : string :=
  match s with
  | EmptyString => ""
  | String c rest => if isspace c then lstrip rest else s
  end.

Fixpoint rstrip (s : string) : string :=
  match s with
  | EmptyString => ""
  | String c rest =>
      match rstrip rest with
      | EmptyString => if isspace c then "" else String c ""
      | r => String c r
      end
  end.

(** [s.strip()]. *)
Definition strip (s : string) : string := rstrip (lstrip s).

(** [s[:stop]]: a negative [stop] counts from the end, and an index past
    either end is clipped. *)
Definition slice_to (s : string) (stop : Z) : string :=
  let n := Z.of_nat (String.length s) in
  let k := if (stop <? 0)%Z then Z.max 0 (n + stop) else Z.min stop n in
  String.substring 0 (Z.to_nat k) s.

(** [s.rfind(sub)], scanning every start index [i] and keeping the last
    one at which [sub] occurs; [best] is the answer so far. *)
Fixpoint rfind_from (sub s : string) (i : nat) (best : Z) : Z :=
  let best := if String.prefix sub s then Z.of_nat i else best in
  match s with
  | EmptyString => best
  | String _ rest => rfind_from sub rest (S i) best
  end.

Definition rfind (s sub : string) : Z := rfind_from sub s 0 (-1).

(** A line feed, and the blank line ["\n\n"] that joins paragraphs. *)
Definition LF : string := String (Ascii.ascii_of_nat 10) "".
Definition LFLF : string := LF +:+ LF.

End Py.

(** ** Data model ([models.py]) *)

Module Models.

Inductive DocumentType :=
  DECISION | TRANSCRIPT | PROCEDURAL | EVIDENCE | NOTICE | IR.

Inductive ConfidentialityLevel := PUBLIC | PROTECTED_A | CONFIDENTIAL.

Inductive PartyRole := APPLICANT | INTERVENER | STAFF.

Inductive ProcessingStatus := PENDING | PROCESSING | INDEXED | FAILED.

(** The [str] value of each member of the [ConfidentialityLevel] enum. *)
Definition level_value (l : ConfidentialityLevel) : string :=
  match l with
  | PUBLIC => "public"
  | PROTECTED_A => "protected_a"
  | CONFIDENTIAL => "confidential"
  end.

Record Party := {
  party_name : string;
  party_role : PartyRole;
  party_ba_code : option string;
}.

Record DocumentMetadata := {
  id : string;
  proceeding_id : string;
  document_type : DocumentType;
  abaer_citation : option string;
  title : string;
  parties : list Party;
  confidentiality_level : ConfidentialityLevel;
  processing_status : ProcessingStatus;
}.

Record UserClaims := {
  oid : string;
  name : string;
  email : string;
  roles : list string;
  party_affiliation : option string;
  ba_code : option string;
}.

#[global] Instance ConfidentialityLevel_eq_dec : EqDecision ConfidentialityLevel.
Proof. solve_decision. Defined.

End Models.

(** ** Authentication and authorisation ([auth/__init__.py]) *)

Module Auth.
Import Models.

(** What a call ends in: a returned value, a [KeyError] raised by a [dict]
    subscript, or an [HTTPException] with its status and error code. *)
Inductive Outcome (A : Type) :=
| Return (a : A)
| KeyError (key : string)
| HTTPException (status_code : Z) (code : string).
Arguments Return {A} a.
Arguments KeyError {A} key.
Arguments HTTPException {A} status_code code.

Definition DEMO_USERS : gmap string UserClaims :=
  <["Hearing_Panel" :=
      {| oid := "demo-panel-001"; name := "Commissioner Demo";
         email := "panel@aer.ca"; roles := ["Hearing_Panel"];
         party_affiliation := None; ba_code := None |}]>
  (<["Staff" :=
      {| oid := "demo-staff-001"; name := "Staff Demo";
         email := "staff@example.com"; roles := ["Staff"];
         party_affiliation := None; ba_code := None |}]>
  (<["Intervener" :=
      {| oid := "demo-intervener-001"; name := "Intervener Demo";
         email := "intervener@example.com"; roles := ["Intervener"];
         party_affiliation := Some "Crowsnest Pass Residents Association";
         ba_code := None |}]>
  (<["Public" :=
      {| oid := "demo-public-001"; name := "Public User";
         email := "public@example.com"; roles := [];
         party_affiliation := None; ba_code := None |}]> ∅))).

(** [DEMO_USERS[key]]: a missing key raises [KeyError]. *)
Definition subscript (d : gmap string UserClaims) (key : string)
  : Outcome UserClaims :=
  match d !! key with
  | Some u => Return u
  | None => KeyError key
  end.

(** [role and role in DEMO_USERS] for an optional header or environment value. *)
Definition valid_demo_role (role : option string) : option string :=
  match role with
  | Some r =>
      if Py.truthy r && bool_decide (is_Some (DEMO_USERS !! r)) then Some r else None
  | None => None
  end.

(** What [get_current_user] reads of the request: the claims a middleware
    attached to [request.state], if any. *)
Record Request := { state_user_claims : option UserClaims }.

(** The bearer credentials extracted by [HTTPBearer(auto_error=False)]. *)
Record HTTPAuthorizationCredentials := { scheme : string; credentials : string }.

Definition HTTP_401_UNAUTHORIZED : Z := 401.

(** [get_current_user]; [environ] is [os.environ]. *)
Definition get_current_user (environ : gmap string string) (request : Request)
    (creds : option HTTPAuthorizationCredentials) (x_demo_role : option string)
  : Outcome UserClaims :=
  match valid_demo_role x_demo_role with
  | Some r => subscript DEMO_USERS r
  | None =>
    match valid_demo_role (environ !! "DEMO_ROLE") with
    | Some r => subscript DEMO_USERS r
    | None =>
      match state_user_claims request with
      | Some claims => Return claims
      | None =>
        if bool_decide (default "development" (environ !! "ENVIRONMENT") = "development")
        then subscript DEMO_USERS "AER_Staff"
        else
          match creds with
          | None => HTTPException HTTP_401_UNAUTHORIZED "AUTH_001"
          | Some _ => subscript DEMO_USERS "AER_Staff"
          end
      end
    end
  end.

(** [user_claims.party_affiliation] when it is truthy (neither [None] nor
    the empty string). *)
Definition affiliation (user_claims : UserClaims) : option string :=
  match party_affiliation user_claims with
  | Some a => if Py.truthy a then Some a else None
  | None => None
  end.

Definition can_access_document (user_claims : UserClaims)
    (document : DocumentMetadata) : bool :=
  match confidentiality_level document with
  | PUBLIC => true
  | PROTECTED_A =>
      if Py.contains "Staff" (roles user_claims)
         || Py.contains "Hearing_Panel" (roles user_claims)
      then true
      else
        match affiliation user_claims with
        | Some a =>
            let party_names := map party_name (parties document) in
            if Py.contains a party_names then true else false
        | None => false
        end
  | CONFIDENTIAL => Py.contains "Hearing_Panel" (roles user_claims)
  end.

Definition build_search_filter (user_claims : UserClaims) : option string :=
  let filters : list string := [] in
  let filters :=
    if negb (Py.contains "Hearing_Panel" (roles user_claims))
    then filters ++ ["confidentialityLevel ne 'confidential'"]
    else filters in
  let filters :=
    if negb (Py.contains "Staff" (roles user_claims))
       && negb (Py.contains "Hearing_Panel" (roles user_claims))
    then
      match affiliation user_claims with
      | Some a =>
          let party_filter :=
            "(confidentialityLevel eq 'public' or "
            +:+ "parties/any(p: p eq '" +:+ a +:+ "'))" in
          filters ++ [party_filter]
      | None => filters ++ ["confidentialityLevel eq 'public'"]
      end
    else filters in
  match filters with
  | [] => None
  | _ => Some (Py.join " and " filters)
  end.

End Auth.

(** ** The retrieval backend's filter language

    [build_search_filter] hands the backend an OData [$filter] text, and
    [index_chunks] ([ingest-documents.py]) writes the fields that text ranges
    over: [confidentialityLevel], the level's value, and [parties], the
    names of the document's parties. This module reads such a text the way
    the backend does, for the fragment the code emits: comparisons [eq] and
    [ne] between fields, range variables and quoted literals, [and], [or],
    parentheses, and [coll/any(x: ...)] over a collection of strings. A quote
    inside a literal is written doubled; a lone quote ends the literal. *)

Module OData.

Inductive token :=
| TName (s : string)
| TLit (s : string)
| TLParen
| TRParen
| TColon
| TSlash.

Inductive lex_state :=
| Idle
| InName (acc : string)
| InLit (acc : string)
| InLitQuote (acc : string).

Definition quote : ascii := "'"%char.

Definition is_name_char (c : ascii) : bool :=
  let n := Ascii.nat_of_ascii c in
  ((65 <=? n) && (n <=? 90)) || ((97 <=? n) && (n <=? 122))
  || ((48 <=? n) && (n <=? 57)) || (n =? 95).

Definition snoc (acc : string) (c : ascii) : string := acc +:+ String c "".

(** Reading one character when no token is open: the token it completes, if
    any, and the state it leaves; [None] for a character no token starts with. *)
Definition start (c : ascii) : option (list token * lex_state) :=
  if Py.isspace c then Some ([], Idle)
  else if bool_decide (c = "("%char) then Some ([TLParen], Idle)
  else if bool_decide (c = ")"%char) then Some ([TRParen], Idle)
  else if bool_decide (c = ":"%char) then Some ([TColon], Idle)
  else if bool_decide (c = "/"%char) then Some ([TSlash], Idle)
  else if bool_decide (c = quote) then Some ([], InLit "")
  else if is_name_char c then Some ([], InName (String c ""))
  else None.

(** One step of the lexer. *)
Definition lex_step (st : lex_state) (c : ascii)
  : option (list token * lex_state) :=
  match st with
  | Idle => start c
  | InName acc =>
      if is_name_char c then Some ([], InName (snoc acc c))
      else '(ts, st') ← start c; Some (TName acc :: ts, st')
  | InLit acc =>
      if bool_decide (c = quote) then Some ([], InLitQuote acc)
      else Some ([], InLit (snoc acc c))
  | InLitQuote acc =>
      if bool_decide (c = quote) then Some ([], InLit (snoc acc quote))
      else '(ts, st') ← start c; Some (TLit acc :: ts, st')
  end.

(** The tokens a piece of text yields from a state, and the state it ends in. *)
Fixpoint lex_run (st : lex_state) (s : string)
  : option (list token * lex_state) :=
  match s with
  | EmptyString => Some ([], st)
  | String c rest =>
      '(ts, st') ← lex_step st c;
      '(ts', st'') ← lex_run st' rest;
      Some (ts ++ ts', st'')
  end.

(** At the end of the text an open name or a closed literal is a token; a
    literal still open is an error. *)
Definition lex_end (st : lex_state) : option (list token) :=
  match st with
  | Idle => Some []
  | InName acc => Some [TName acc]
  | InLit _ => None
  | InLitQuote acc => Some [TLit acc]
  end.

Definition lex (s : string) : option (list token) :=
  '(ts, st) ← lex_run Idle s;
  ts' ← lex_end st;
  Some (ts ++ ts').

Inductive operand :=
| OName (x : string)
| OLit (s : string).

Inductive cmp := Eq | Ne.

Inductive expr :=
| Cmp (op : cmp) (a b : operand)
| And (e1 e2 : expr)
| Or (e1 e2 : expr)
| Any (coll var : string) (body : expr).

Inductive level := LOr | LAnd | LPrim.

Definition parse_operand (t : token) : option operand :=
  match t with
  | TName x => Some (OName x)
  | TLit s => Some (OLit s)
  | _ => None
  end.

Definition parse_cmp (t : token) : option cmp :=
  match t with
  | TName x =>
      if String.eqb x "eq" then Some Eq
      else if String.eqb x "ne" then Some Ne
      else None
  | _ => None
  end.

Definition is_keyword (kw : string) (t : token) : bool :=
  match t with
  | TName x => String.eqb x kw
  | _ => false
  end.

(** Recursive descent: [or] binds weaker than [and], which binds weaker
    than a comparison; [fuel] bounds the nesting. *)
Fixpoint parse (fuel : nat) (lv : level) (ts : list token)
  : option (expr * list token) :=
  match fuel with
  | 0 => None
  | S fuel =>
      match lv with
      | LOr =>
          '(e1, ts1) ← parse fuel LAnd ts;
          match ts1 with
          | t :: ts2 =>
              if is_keyword "or" t
              then '(e2, ts3) ← parse fuel LOr ts2; Some (Or e1 e2, ts3)
              else Some (e1, ts1)
          | [] => Some (e1, ts1)
          end
      | LAnd =>
          '(e1, ts1) ← parse fuel LPrim ts;
          match ts1 with
          | t :: ts2 =>
              if is_keyword "and" t
              then '(e2, ts3) ← parse fuel LAnd ts2; Some (And e1 e2, ts3)
              else Some (e1, ts1)
          | [] => Some (e1, ts1)
          end
      | LPrim =>
          match ts with
          | TLParen :: ts1 =>
              '(e, ts2) ← parse fuel LOr ts1;
              match ts2 with
              | TRParen :: ts3 => Some (e, ts3)
              | _ => None
              end
          | TName coll :: TSlash :: TName f :: TLParen :: TName var :: TColon :: ts1 =>
              if String.eqb f "any" then
                '(e, ts2) ← parse fuel LOr ts1;
                match ts2 with
                | TRParen :: ts3 => Some (Any coll var e, ts3)
                | _ => None
                end
              else None
          | a :: op :: b :: ts1 =>
              a' ← parse_operand a;
              op' ← parse_cmp op;
              b' ← parse_operand b;
              Some (Cmp op' a' b', ts1)
          | _ => None
          end
      end
  end.

Definition parse_filter (s : string) : option expr :=
  ts ← lex s;
  '(e, rest) ← parse (3 * length ts + 3) LOr ts;
  match rest with
  | [] => Some e
  | _ => None
  end.

(** The fields of an index document the security filter ranges over, as
    [index_chunks] writes them. *)
Record IndexDoc := {
  confidentialityLevel : string;
  parties : list string;
}.

Definition eval_operand (env : list (string * string)) (doc : IndexDoc)
    (o : operand) : option string :=
  match o with
  | OLit s => Some s
  | OName x =>
      match list_find (λ b, bool_decide (b.1 = x)) env with
      | Some (_, (_, v)) => Some v
      | None =>
          if String.eqb x "confidentialityLevel"
          then Some (confidentialityLevel doc)
          else None
      end
  end.

Fixpoint eval (env : list (string * string)) (doc : IndexDoc) (e : expr)
  : option bool :=
  match e with
  | Cmp op a b =>
      va ← eval_operand env doc a;
      vb ← eval_operand env doc b;
      Some (match op with
            | Eq => String.eqb va vb
            | Ne => negb (String.eqb va vb)
            end)
  | And e1 e2 =>
      b1 ← eval env doc e1; b2 ← eval env doc e2; Some (b1 && b2)
  | Or e1 e2 =>
      b1 ← eval env doc e1; b2 ← eval env doc e2; Some (b1 || b2)
  | Any coll var body =>
      if String.eqb coll "parties" then
        foldr (λ x acc,
                 b ← eval ((var, x) :: env) doc body;
                 r ← acc;
                 Some (b || r))
              (Some false) (parties doc)
      else None
  end.

(** A text with no quote in it: written between quotes it is a literal. *)
Fixpoint quote_free (s : string) : bool :=
  match s with
  | EmptyString => true
  | String c rest => negb (bool_decide (c = quote)) && quote_free rest
  end.

(** The decision a filter text denotes on a document; [None] when the text
    is not a filter (the backend rejects the query). *)
Definition eval_filter (s : string) (doc : IndexDoc) : option bool :=
  e ← parse_filter s; eval [] doc e.

End OData.

(** ** Applying the security filter *)

Module Filtering.
Import Models.

(** The index fields of a document ([index_chunks]). *)
Definition index_doc (d : DocumentMetadata) : OData.IndexDoc :=
  {| OData.confidentialityLevel := level_value (confidentiality_level d);
     OData.parties := map party_name (parties d) |}.

(** [search_documents] adds the security filter only when it is present
    ([if security_filter:]); an absent filter restricts nothing. *)
Definition security_decision (security_filter : option string)
    (d : DocumentMetadata) : option bool :=
  match security_filter with
  | None => Some true
  | Some f => if Py.truthy f then OData.eval_filter f (index_doc d) else Some true
  end.

End Filtering.

(** ** Regular expressions ([re])

    The patterns of the repository are sequences of one-character atoms,
    each with a greedy quantifier, matched with backtracking as [re] does. *)

Module Re.

Inductive atom :=
| Lit (c : ascii)      (** a literal character *)
| Space                (** [\s] *)
| Digit                (** [\d] *)
| DigitDot.            (** [[\d\.]] *)

Inductive quant := One | Opt | Star | Plus.

Definition regex := list (atom * quant).

Definition is_digit (c : ascii) : bool :=
  let n := Ascii.nat_of_ascii c in (48 <=? n) && (n <=? 57).

(** The lower-case form of an ASCII letter; other characters are kept. *)
Definition lower (c : ascii) : ascii :=
  let n := Ascii.nat_of_ascii c in
  if (65 <=? n) && (n <=? 90) then Ascii.ascii_of_nat (n + 32) else c.

(** Whether atom [a] accepts character [c]; [ic] is [re.IGNORECASE]. *)
Definition accepts (ic : bool) (a : atom) (c : ascii) : bool :=
  match a with
  | Lit x => if ic then bool_decide (lower x = lower c) else bool_decide (x = c)
  | Space => Py.isspace c
  | Digit => is_digit c
  | DigitDot => is_digit c || bool_decide (c = "."%char)
  end.

(** Greedy repetition of one atom, then the rest of the pattern [k]: take
    the character and go on, and give it back if the rest then fails. *)
Fixpoint match_star (ic : bool) (a : atom) (k : string → option string)
    (s : string) : option string :=
  match s with
  | EmptyString => k ""
  | String c rest =>
      if accepts ic a c then
        match match_star ic a k rest with
        | Some r => Some r
        | None => k s
        end
      else k s
  end.

(** [pattern.match] at the start of [s]: the text left after the match. *)
Fixpoint match_here (ic : bool) (r : regex) (s : string) : option string :=
  match r with
  | [] => Some s
  | (a, One) :: r' =>
      match s with
      | String c rest => if accepts ic a c then match_here ic r' rest else None
      | EmptyString => None
      end
  | (a, Opt) :: r' =>
      match s with
      | String c rest =>
          if accepts ic a c then
            match match_here ic r' rest with
            | Some x => Some x
            | None => match_here ic r' s
            end
          else match_here ic r' s
      | EmptyString => match_here ic r' s
      end
  | (a, Star) :: r' => match_star ic a (match_here ic r') s
  | (a, Plus) :: r' =>
      match s with
      | String c rest =>
          if accepts ic a c then match_star ic a (match_here ic r') rest else None
      | EmptyString => None
      end
  end.

(** The length of the match of [r] at the start of [s], if there is one. *)
Definition match_length (ic : bool) (r : regex) (s : string) : option nat :=
  rest ← match_here ic r s; Some (String.length s - String.length rest).

(** [re.findall(r, s)] for a pattern that matches no empty text: the
    matches from left to right, none overlapping another. [skip] counts the
    characters of the last match still to pass. *)
Fixpoint findall_go (ic : bool) (r : regex) (skip : nat) (s : string)
  : list string :=
  match s with
  | EmptyString => []
  | String _ rest =>
      match skip with
      | S k => findall_go ic r k rest
      | 0 =>
          match match_length ic r s with
          | Some (S n) => String.substring 0 (S n) s :: findall_go ic r n rest
          | _ => findall_go ic r 0 rest
          end
      end
  end.

Definition findall (ic : bool) (r : regex) (s : string) : list string :=
  findall_go ic r 0 s.

(** [re.split(r, s)] for a pattern that matches no empty text: the pieces of
    [s] between the matches; [cur] is the piece being read. *)
Fixpoint split_go (ic : bool) (r : regex) (skip : nat) (cur : string)
    (s : string) : list string :=
  match s with
  | EmptyString => [cur]
  | String c rest =>
      match skip with
      | S k => split_go ic r k cur rest
      | 0 =>
          match match_length ic r s with
          | Some (S n) => cur :: split_go ic r n "" rest
          | _ => split_go ic r 0 (cur +:+ String c "") rest
          end
      end
  end.

Definition split (ic : bool) (r : regex) (s : string) : list string :=
  split_go ic r 0 "" s.

(** [re.split] on a separator [\s+] that must follow a character of the
    class [term] (a lookbehind, as in [(?<=[.!?])\s+]). The state says
    whether the last character read was of that class, or that a separator
    is being passed. *)
Inductive split_state := InText (after_term : bool) | InGap.

Fixpoint split_after_go (term : ascii → bool) (st : split_state)
    (cur : string) (s : string) : list string :=
  match s with
  | EmptyString => [cur]
  | String c rest =>
      match st with
      | InGap =>
          if Py.isspace c then split_after_go term InGap cur rest
          else split_after_go term (InText (term c)) (cur +:+ String c "") rest
      | InText after =>
          if after && Py.isspace c then cur :: split_after_go term InGap "" rest
          else split_after_go term (InText (term c)) (cur +:+ String c "") rest
      end
  end.

Definition split_after (term : ascii → bool) (s : string) : list string :=
  split_after_go term (InText false) "" s.

(** A word of literal characters. *)
Fixpoint word (w : string) : regex :=
  match w with
  | EmptyString => []
  | String c rest => (Lit c, One) :: word rest
  end.

End Re.

(** ** Search service ([search/service.py]) *)

Module Search.

Definition highlight_snippet (content : string) (max_length : Z) : string :=
  let content := Py.strip content in
  if (Z.of_nat (String.length content) <=? max_length)%Z then content
  else
    let truncated := Py.slice_to content max_length in
    let last_period := Py.rfind truncated ". " in
    if (max_length `div` 2 <? last_period)%Z
    then Py.slice_to truncated (last_period + 1)
    else
      let last_space := Py.rfind truncated " " in
      if (0 <? last_space)%Z
      then Py.slice_to truncated last_space +:+ "..."
      else truncated +:+ "...".

(** Where a text occurs in another: [sub] stands at index [i] of [s]. *)
Definition occurs_at (sub s : string) (i : nat) : Prop :=
  ∃ pre post, s = pre +:+ sub +:+ post ∧ String.length pre = i.

(** The last place [sub] occurs in [s]. *)
Definition last_occurrence (sub s : string) (i : nat) : Prop :=
  occurs_at sub s i ∧ ∀ j, occurs_at sub s j → j ≤ i.

End Search.

(** ** Ingestion pipeline ([scripts/ingest-documents.py]) *)

Module Page.
Record t := { page_number : Z; text : string }.
End Page.

Module Chunk.
Record t := {
  chunk_id : Z;
  content : string;
  page_number : Z;
  paragraph_number : option string;
  regulatory_citations : list string;
}.
End Chunk.

Module Ingest.
Import Re.

(** [\s+s\.?\s*\d+], the section token of a statute citation. *)
Definition section_token : regex :=
  [(Space, Plus); (Lit "s", One); (Lit ".", Opt); (Space, Star); (Digit, Plus)].

Definition legislation_patterns : list regex :=
  [ word "REDA" ++ section_token;
    word "EPEA" ++ section_token;
    word "OGCA" ++ section_token;
    word "Pipeline" ++ [(Space, Plus)] ++ word "Act" ++ section_token;
    word "Water" ++ [(Space, Plus)] ++ word "Act" ++ section_token;
    word "Public" ++ [(Space, Plus)] ++ word "Lands" ++ [(Space, Plus)]
      ++ word "Act" ++ section_token ].

Definition directive_patterns : list regex :=
  [ word "Directive" ++ [(Space, Plus); (Lit "0", Opt); (Digit, Plus)];
    word "Directive" ++ [(Space, Plus); (Lit "0", Opt); (Digit, Plus)]
      ++ [(Space, Plus); (Lit "s", One); (Lit ".", Opt); (Space, Star);
          (DigitDot, Plus)] ].

(** The [citations] set after the loop over the patterns. *)
Definition citations (text : string) : gset string :=
  foldl (λ acc pattern, acc ∪ list_to_set (findall true pattern text))
        ∅ (legislation_patterns ++ directive_patterns).

(** [list(citations)]: the elements of the set, in some order. *)
Definition extract_regulatory_citations (text : string) : list string :=
  elements (citations text).

(** [re.findall(r'\[(\d+)\]', text)]: the digits of each bracketed number. *)
Definition extract_paragraph_numbers (text : string) : list string :=
  map (λ m, String.substring 1 (String.length m - 2) m)
      (findall false [(Lit "[", One); (Digit, Plus); (Lit "]", One)] text).

(** [re.split(r'\n\s*\n', text)]. *)
Definition split_paragraphs (text : string) : list string :=
  split false [(Lit (Ascii.ascii_of_nat 10), One); (Space, Star);
               (Lit (Ascii.ascii_of_nat 10), One)] text.

Definition is_terminal (c : ascii) : bool :=
  bool_decide (c = "."%char) || bool_decide (c = "!"%char)
  || bool_decide (c = "?"%char).

(** [re.split(r'(?<=[.!?])\s+', para)]. *)
Definition split_sentences (para : string) : list string :=
  split_after is_terminal para.

(** [l[-n:]] for [n > 0]. *)
Definition last_n {A} (n : nat) (l : list A) : list A :=
  drop (length l - n) l.

Definition nonempty {A} (l : list A) : bool :=
  match l with [] => false | _ => true end.

(** The local variables of [chunk_text]. *)
Record State := {
  chunks : list Chunk.t;
  current_chunk : list string;
  current_tokens : Z;
  current_page : Z;
  chunk_id : Z;
}.

Definition init : State :=
  {| chunks := []; current_chunk := []; current_tokens := 0;
     current_page := 1; chunk_id := 0 |}.

(** The chunk a flush appends: the pending units joined by [sep]. *)
Definition make_chunk (st : State) (sep : string) : Chunk.t :=
  let chunk_text := Py.join sep (current_chunk st) in
  let para_nums := extract_paragraph_numbers chunk_text in
  {| Chunk.chunk_id := chunk_id st;
     Chunk.content := chunk_text;
     Chunk.page_number := current_page st;
     Chunk.paragraph_number := head para_nums;
     Chunk.regulatory_citations := extract_regulatory_citations chunk_text |}.

Section chunker.

(** [len(TOKENIZER.encode(s))]. *)
Variable count_tokens : string → nat.
Variable chunk_size : Z.

Definition tokens (s : string) : Z := Z.of_nat (count_tokens s).

(** The body of the loop over the sentences of an oversized paragraph. *)
Definition sent_step (page_num : Z) (st : State) (sent : string) : State :=
  let sent_tokens := tokens sent in
  let st :=
    if (chunk_size <? current_tokens st + sent_tokens)%Z
       && nonempty (current_chunk st)
    then
      let overlap_text :=
        if bool_decide (2 ≤ length (current_chunk st))
        then Py.join " " (last_n 2 (current_chunk st)) else "" in
      {| chunks := chunks st ++ [make_chunk st " "];
         chunk_id := chunk_id st + 1;
         current_chunk := if Py.truthy overlap_text then [overlap_text] else [];
         current_tokens := if Py.truthy overlap_text then tokens overlap_text else 0;
         current_page := current_page st |}
    else st in
  {| chunks := chunks st;
     chunk_id := chunk_id st;
     current_chunk := current_chunk st ++ [sent];
     current_tokens := current_tokens st + sent_tokens;
     current_page := page_num |}.

(** The body of the loop over the paragraphs of a page. *)
Definition para_step (page_num : Z) (st : State) (para : string) : State :=
  let para := Py.strip para in
  if negb (Py.truthy para) then st
  else
    let para_tokens := tokens para in
    if (chunk_size <? para_tokens)%Z then
      let st :=
        if nonempty (current_chunk st)
        then {| chunks := chunks st ++ [make_chunk st Py.LFLF];
                chunk_id := chunk_id st + 1;
                current_chunk := [];
                current_tokens := 0;
                current_page := current_page st |}
        else st in
      let sentences := split_sentences para in
      foldl (sent_step page_num) st sentences
    else if (chunk_size <? current_tokens st + para_tokens)%Z then
      let overlap_paragraphs :=
        if nonempty (current_chunk st) then last_n 1 (current_chunk st) else [] in
      let new_chunk := overlap_paragraphs ++ [para] in
      {| chunks := chunks st ++ [make_chunk st Py.LFLF];
         chunk_id := chunk_id st + 1;
         current_chunk := new_chunk;
         current_tokens := foldr (λ p acc, tokens p + acc)%Z 0%Z new_chunk;
         current_page := page_num |}
    else
      {| chunks := chunks st;
         chunk_id := chunk_id st;
         current_chunk := current_chunk st ++ [para];
         current_tokens := current_tokens st + para_tokens;
         current_page := page_num |}.

(** The body of the loop over the pages. *)
Definition page_step (st : State) (page : Page.t) : State :=
  foldl (para_step (Page.page_number page)) st
        (split_paragraphs (Page.text page)).

(** [chunk_text(pages, chunk_size, overlap)]; [overlap] is not read. *)
Definition chunk_text (pages : list Page.t) (overlap : Z) : list Chunk.t :=
  let st := foldl page_step init pages in
  if nonempty (current_chunk st)
  then chunks st ++ [make_chunk st Py.LFLF]
  else chunks st.

End chunker.

(** A stand-in tokenizer that counts the words of a text: the maximal runs
    of characters that are not whitespace. *)
Fixpoint word_count_go (in_word : bool) (s : string) : nat :=
  match s with
  | EmptyString => 0
  | String c rest =>
      if Py.isspace c then word_count_go false rest
      else (if in_word then 0 else 1) + word_count_go true rest
  end.

Definition word_count (s : string) : nat := word_count_go false s.

End Ingest.

(** ** Reading the chunks as a trace

    A chunk does not record what it repeats of the chunk before it. The
    definitions below name it: a chunk is a [Part], the unit it carries
    over (if any) followed by the units it adds, and [inv] relates the
    local variables of [chunk_text] to the parts flushed so far. *)

Module Trace.
Import Re Ingest.

Definition is_suffix (u s : string) : Prop := ∃ l, s = l +:+ u.

Record Part := { carried : option string; fresh : list string; sep : string }.

Definition units (p : Part) : list string := option_list (carried p) ++ fresh p.

(** The content of the chunk a part stands for. *)
Definition render (p : Part) : string := Py.join (sep p) (units p).

(** What a chunk hands on to the next one, when it hands on anything: its
    last unit when its units are joined by blank lines (the paragraph
    loop), and its last two units, joined by a space, when its units are
    joined by spaces and are two at least (the sentence loop). *)
Definition carried_from (prev : Part) (u : string) : Prop :=
  (sep prev = Py.LFLF ∧ last (units prev) = Some u) ∨
  (sep prev = " " ∧ 2 ≤ length (units prev) ∧
   u = Py.join " " (last_n 2 (units prev))).

(** The chunks that hand nothing on: one flushed ahead of a paragraph that
    is split, its units joined by blank lines, and one flushed during the
    split while it holds a single unit. *)
Definition nothing_carried_from (prev : Part) : Prop :=
  sep prev = Py.LFLF ∨ (sep prev = " " ∧ length (units prev) = 1).

(** How a part begins, given the part [prev] before it: it carries what
    that part hands on, which is not empty and ends its content, or else
    it carries nothing, that part hands nothing on, and it starts with a
    unit satisfying [Over]; the first part carries nothing. *)
Definition linked (Over : string → Prop) (prev : option Part) (p : Part)
  : Prop :=
  match prev with
  | None => carried p = None
  | Some pp =>
      match carried p with
      | Some u => u ≠ "" ∧ is_suffix u (render pp) ∧ carried_from pp u
      | None =>
          (∃ s rest, fresh p = s :: rest ∧ Over s) ∧ nothing_carried_from pp
      end
  end.

Fixpoint chain (Over : string → Prop) (prev : option Part)
    (ps : list Part) : Prop :=
  match ps with
  | [] => True
  | p :: ps => linked Over prev p ∧ chain Over (Some p) ps
  end.

Definition last_part (prev : option Part) (ps : list Part) : option Part :=
  match last ps with
  | Some p => Some p
  | None => prev
  end.

(** [linked] for the pending chunk, which may still be empty
    ([allow_empty]) while an oversized paragraph is being split. *)
Definition pending_ok (Over : string → Prop) (allow_empty : bool)
    (prev : option Part) (cc : option string) (fc : list string) : Prop :=
  match prev with
  | None => cc = None
  | Some pp =>
      match cc with
      | Some u => u ≠ "" ∧ is_suffix u (render pp) ∧ carried_from pp u
      | None =>
          nothing_carried_from pp ∧
          match fc with
          | s :: _ => Over s
          | [] => allow_empty = true
          end
      end
  end.

(** A text that ends in a character that is not whitespace. *)
Fixpoint ends_in_text (s : string) : bool :=
  match s with
  | EmptyString => false
  | String c EmptyString => negb (Py.isspace c)
  | String _ rest => ends_in_text rest
  end.

(** Whitespace normalisation: the text without its whitespace. *)
Fixpoint normalize (s : string) : string :=
  match s with
  | EmptyString => ""
  | String c rest =>
      if Py.isspace c then normalize rest else String c (normalize rest)
  end.

(** A pattern whose atoms accept whitespace only. *)
Definition blank_atoms (ic : bool) (r : regex) : Prop :=
  ∀ a q c, (a, q) ∈ r → accepts ic a c = true → Py.isspace c = true.

(** A matcher that consumes whitespace only. *)
Definition eats_blanks (k : string → option string) : Prop :=
  ∀ s rest, k s = Some rest → ∃ m, s = m +:+ rest ∧ normalize m = "".

(** The first [n] characters of [s] are whitespace. *)
Definition blank_prefix (n : nat) (s : string) : Prop :=
  ∃ m rest, s = m +:+ rest ∧ String.length m = n ∧ normalize m = "".

Section trace.
Variable count_tokens : string → nat.
Variable chunk_size : Z.

Definition sum_tokens (l : list string) : Z :=
  foldr (λ p acc, tokens count_tokens p + acc)%Z 0%Z l.

(** The state of [chunk_text] after the units [done] were read. *)
Inductive inv (Over : string → Prop) (allow_empty : bool)
    (done : list string) (st : State) : Prop :=
| Inv (ps : list Part) (cc : option string) (fc : list string)
    (Hcontents : map Chunk.content (chunks st) = map render ps)
    (Hids : map Chunk.chunk_id (chunks st)
            = Z.of_nat <$> seq 0 (length (chunks st)))
    (Hid : chunk_id st = Z.of_nat (length (chunks st)))
    (Hchain : chain Over None ps)
    (Hcurrent : current_chunk st = option_list cc ++ fc)
    (Hunits : concat (map fresh ps) ++ fc = done)
    (Hpending : pending_ok Over allow_empty (last_part None ps) cc fc)
    (Htokens : current_tokens st = sum_tokens (current_chunk st))
    (Hnonempty : Forall (λ u, u ≠ "") (current_chunk st))
    (Hseps : Forall (λ p, normalize (sep p) = "") ps)
    (Hfresh : fc = [] → cc = None)
    (Hparts : Forall (λ p, fresh p ≠ [] ∧ Forall (λ u, u ≠ "") (units p)) ps).

(** The units [chunk_text] reads from a paragraph: nothing when it is
    blank, its sentences when it alone exceeds [chunk_size], and the
    stripped paragraph otherwise. *)
Definition para_units (para : string) : list string :=
  let para := Py.strip para in
  if negb (Py.truthy para) then []
  else if (chunk_size <? tokens count_tokens para)%Z then split_sentences para
  else [para].

Definition page_units (page : Page.t) : list string :=
  flat_map para_units (split_paragraphs (Page.text page)).

Definition all_units (pages : list Page.t) : list string :=
  flat_map page_units pages.

(** A sentence of a paragraph of the input that alone exceeds [chunk_size]. *)
Definition oversized_sentence (pages : list Page.t) (s : string) : Prop :=
  ∃ page para,
    page ∈ pages ∧ para ∈ split_paragraphs (Page.text page) ∧
    Py.strip para ≠ "" ∧
    (chunk_size < tokens count_tokens (Py.strip para))%Z ∧
    s ∈ split_sentences (Py.strip para).

End trace.
End Trace.

(** ** Sample inputs *)

Module Samples.
Import Models.

Definition claims (rs : list string) (aff : option string) : UserClaims :=
  {| oid := "user-001"; name := "User"; email := "user@example.com";
     roles := rs; party_affiliation := aff; ba_code := None |}.

Definition document (lvl : ConfidentialityLevel) (names : list string)
  : DocumentMetadata :=
  {| id := "doc-001"; proceeding_id := "449"; document_type := EVIDENCE;
     abaer_citation := None; title := "Exhibit 12.01";
     parties := map (λ n, {| party_name := n; party_role := INTERVENER;
                             party_ba_code := None |}) names;
     confidentiality_level := lvl; processing_status := INDEXED |}.

Definition page (s : string) : Page.t :=
  {| Page.page_number := 1; Page.text := s |}.

(** The example text; its closing ellipsis is held as the three bytes of
    its UTF-8 form, none of them a digit, a space or a letter of a pattern. *)
Definition citation_text : string :=
  "Under REDA s. 34 and Directive 056 s. 2.1, the panel finds…".

(** One paragraph of four sentences of two words each. *)
Definition four_sentences : string := "a b. c d. e f. g h.".

(** Three paragraphs of two words each. *)
Definition three_paragraphs : string :=
  "a b" +:+ Py.LFLF +:+ "c d" +:+ Py.LFLF +:+ "e f".

End Samples.

(** ** Dependencies and guards of the endpoints
    ([auth/__init__.py], [main.py]) *)

Module Deps.
Import Models Auth.

Definition HTTP_403_FORBIDDEN : Z := 403.

(** [Depends(dep)]: the dependency is resolved first, and what it raises
    is what the dependent raises. *)
Definition depends {A B} (dep : Outcome A) (f : A → Outcome B) : Outcome B :=
  match dep with
  | Return a => f a
  | KeyError key => KeyError key
  | HTTPException status_code code => HTTPException status_code code
  end.

(** [role_checker] of [require_roles], given the required roles, on the claims its
    dependency resolved. *)
Definition require_roles (required_roles : list string)
    (user_claims : UserClaims) : Outcome UserClaims :=
  if negb (existsb (λ role, Py.contains role (roles user_claims)) required_roles)
  then HTTPException HTTP_403_FORBIDDEN "AUTH_002"
  else Return user_claims.

(** [access_checker] of [require_document_access(document)]. *)
Definition require_document_access (document : DocumentMetadata)
    (user_claims : UserClaims) : Outcome UserClaims :=
  if negb (can_access_document user_claims document)
  then HTTPException HTTP_403_FORBIDDEN "DOC_003"
  else Return user_claims.

Record IngestionResponse := {
  document_id : string;
  status : ProcessingStatus;
  estimated_completion_minutes : Z;
}.

(** [ingest_document] ([main.py]) on resolved claims; [uuid4] is the
    identifier drawn for the document. The file and the metadata are read
    for the log only. *)
Definition ingest_document (uuid4 : string) (user_claims : UserClaims)
  : Outcome IngestionResponse :=
  if negb (Py.contains "Staff" (roles user_claims))
     && negb (Py.contains "Hearing_Panel" (roles user_claims))
  then HTTPException HTTP_403_FORBIDDEN "AUTH_002"
  else Return {| document_id := uuid4; status := PENDING;
                 estimated_completion_minutes := 5 |}.

End Deps.

(** ** The filter sent to the backend ([search/service.py], [main.py]) *)

Module SearchFilter.
Import Models Auth.

(** The [str] value of each member of the [DocumentType] enum. *)
Definition document_type_value (dt : DocumentType) : string :=
  match dt with
  | DECISION => "decision"
  | TRANSCRIPT => "transcript"
  | PROCEDURAL => "procedural"
  | EVIDENCE => "evidence"
  | NOTICE => "notice"
  | IR => "information_request"
  end.

Record date := { year : Z; month : Z; day : Z }.

Record SearchFilters := {
  document_types : option (list DocumentType);
  parties : option (list string);
  regulatory_citations : option (list string);
  date_from : option date;
  date_to : option date;
}.

Record SearchRequest := {
  query : string;
  proceeding_id : option string;
  filters : option SearchFilters;
  top : Z;
  search_mode : string;
}.

(** A clause [(c1 or c2 or ...)] for an optional list that is neither
    [None] nor empty. *)
Definition or_clause {A} (values : option (list A)) (clause : A → string)
    (filters : list string) : list string :=
  match values with
  | Some ((_ :: _) as vs) =>
      filters ++ ["(" +:+ Py.join " or " (map clause vs) +:+ ")"]
  | _ => filters
  end.

(** The clause [search_documents] writes for one requested party. *)
Definition party_clause (party : string) : string :=
  "parties/any(p: p eq '" +:+ party +:+ "')".

(** [final_filter] of [search_documents]. *)
Definition final_filter (request : SearchRequest)
    (security_filter : option string) : option string :=
  let filters : list string := [] in
  let filters :=
    match security_filter with
    | Some f => if Py.truthy f then filters ++ [f] else filters
    | None => filters
    end in
  let filters :=
    match SearchFilter.filters request with
    | Some fs =>
        let filters :=
          or_clause (document_types fs)
            (λ dt, "documentType eq '" +:+ document_type_value dt +:+ "'")
            filters in
        let filters := or_clause (parties fs) party_clause filters in
        or_clause (regulatory_citations fs)
          (λ cite, "regulatoryCitations/any(c: search.ismatch('" +:+ cite
                   +:+ "', 'c'))") filters
    | None => filters
    end in
  let filters :=
    match proceeding_id request with
    | Some p =>
        if Py.truthy p then filters ++ ["proceedingId eq '" +:+ p +:+ "'"]
        else filters
    | None => filters
    end in
  match filters with
  | [] => None
  | _ => Some (Py.join " and " filters)
  end.

(** The filter [search_documents_endpoint] ([main.py]) has sent for a
    request of a user: the security filter of the claims, then the
    caller's. *)
Definition endpoint_filter (request : SearchRequest) (user_claims : UserClaims)
  : option string :=
  final_filter request (build_search_filter user_claims).

(** Whether the backend returns the chunks of a document under the
    [filter] entry of [search_kwargs]; the entry is dropped when it is
    [None], and nothing is filtered then. *)
Definition backend_decision (filter : option string) (d : DocumentMetadata)
  : option bool :=
  match filter with
  | None => Some true
  | Some f => OData.eval_filter f (Filtering.index_doc d)
  end.

(** A request that names parties only. *)
Definition party_request (q : string) (ps : list string) : SearchRequest :=
  {| query := q; proceeding_id := None;
     filters := Some {| document_types := None; parties := Some ps;
                        regulatory_citations := None;
                        date_from := None; date_to := None |};
     top := 10; search_mode := "hybrid" |}.

(** A request with other dates in its filters. *)
Definition with_dates (request : SearchRequest) (df dt : option date)
  : SearchRequest :=
  {| query := query request; proceeding_id := proceeding_id request;
     filters :=
       match filters request with
       | Some fs =>
           Some {| document_types := document_types fs; parties := parties fs;
                   regulatory_citations := regulatory_citations fs;
                   date_from := df; date_to := dt |}
       | None => None
       end;
     top := top request; search_mode := search_mode request |}.

(** A request that gives dates and nothing else. *)
Definition dated_request : SearchRequest :=
  {| query := "groundwater monitoring"; proceeding_id := None;
     filters := Some {| document_types := None; parties := Some [];
                        regulatory_citations := None;
                        date_from := Some {| year := 2024; month := 1;
                                             day := 15 |};
                        date_to := None |};
     top := 10; search_mode := "hybrid" |}.

(** A party name that closes the clause it is pasted into and opens an
    alternative that holds of every document. *)
Definition closing_party : string :=
  "x')) or (confidentialityLevel ne 'x' or parties/any(p: p eq 'x".

(** The tokens and the reading of the clause for the parties [ps]. *)
Definition party_tokens (party : string) : list OData.token :=
  [OData.TName "parties"; OData.TSlash; OData.TName "any"; OData.TLParen;
   OData.TName "p"; OData.TColon; OData.TName "p"; OData.TName "eq";
   OData.TLit party; OData.TRParen].

Fixpoint chain_tokens (p : string) (ps : list string) : list OData.token :=
  match ps with
  | [] => party_tokens p
  | q :: ps' => party_tokens p ++ OData.TName "or" :: chain_tokens q ps'
  end.

Definition party_expr (party : string) : OData.expr :=
  OData.Any "parties" "p"
    (OData.Cmp OData.Eq (OData.OName "p") (OData.OLit party)).

Fixpoint or_expr (p : string) (ps : list string) : OData.expr :=
  match ps with
  | [] => party_expr p
  | q :: ps' => OData.Or (party_expr p) (or_expr q ps')
  end.

End SearchFilter.

(** ** More of the ingestion pipeline ([scripts/ingest-documents.py]) *)

Module Pipeline.
Import Re Ingest.

(** What a match leaves is an end of the text it was tried on. *)
Definition consumes (k : string → option string) : Prop :=
  ∀ s rest, k s = Some rest → ∃ m, s = m +:+ rest.

(** The pattern [\[(\d+)\]] of [extract_paragraph_numbers], group and all. *)
Definition bracketed_number : regex :=
  [(Lit "[", One); (Digit, Plus); (Lit "]", One)].

(** The lower-case form of a text, letter by letter. *)
Fixpoint lower_string (s : string) : string :=
  match s with
  | EmptyString => ""
  | String c rest => String (lower c) (lower_string rest)
  end.

(** [c] begins with the word [w], letter case ignored. *)
Definition begins_ignoring_case (w c : string) : Prop :=
  ∃ pre post, c = pre +:+ post ∧ lower_string pre = lower_string w.

(** The last character of [c] is of the class [ok]. *)
Definition ends_in (ok : ascii → bool) (c : string) : Prop :=
  ∃ m ch, c = m +:+ String ch "" ∧ ok ch = true.

(** The words the patterns of [extract_regulatory_citations] begin with. *)
Definition citation_keywords : list string :=
  ["REDA"; "EPEA"; "OGCA"; "Pipeline"; "Water"; "Public"; "Directive"].

(** A text of decimal digits only. *)
Definition digits (s : string) : bool :=
  forallb is_digit (list_ascii_of_string s).

(** What a chunk of [chunk_text] holds, given the page numbers of the
    input: a content that is not empty, the number of one of the pages, and
    a paragraph number and citations read from its own content. *)
Definition well_formed (page_numbers : list Z) (c : Chunk.t) : Prop :=
  Chunk.content c ≠ "" ∧
  Chunk.page_number c ∈ page_numbers ∧
  Chunk.paragraph_number c
    = head (extract_paragraph_numbers (Chunk.content c)) ∧
  Chunk.regulatory_citations c
    = extract_regulatory_citations (Chunk.content c).

(** The local variables of [chunk_text] between two steps. *)
Definition fields_inv (page_numbers : list Z) (st : State) : Prop :=
  Forall (well_formed page_numbers) (chunks st) ∧
  Forall (λ u, u ≠ "") (current_chunk st) ∧
  (current_chunk st ≠ [] → current_page st ∈ page_numbers) ∧
  (current_chunk st = [] → current_tokens st = 0%Z) ∧
  (0 ≤ current_tokens st)%Z.

(** What [page.extract_text()] ends in for one page of a PDF: an
    exception, or the text, which may be [None]. *)
Inductive extracted :=
| Raised
| Text (t : option string).

(** The loop of [extract_text_from_pdf] from page index [i] on; an
    exception ends it, and the pages read so far are kept. *)
Fixpoint extract_pages (i : Z) (results : list extracted) : list Page.t :=
  match results with
  | [] => []
  | Raised :: _ => []
  | Text t :: rest =>
      let text := match t with
                  | Some s => if Py.truthy s then s else ""
                  | None => ""
                  end in
      if Py.truthy (Py.strip text)
      then {| Page.page_number := i + 1; Page.text := text |}
           :: extract_pages (i + 1) rest
      else extract_pages (i + 1) rest
  end.

(** [extract_text_from_pdf]; [reader] is [None] when [PdfReader(pdf_path)]
    raises, and otherwise what each of [reader.pages] gives. *)
Definition extract_text_from_pdf (reader : option (list extracted))
  : list Page.t :=
  match reader with
  | Some results => extract_pages 0 results
  | None => []
  end.

(** [range(0, n, step)] for a positive [step]: [0, step, 2 step, ...]
    below [n]. *)
Fixpoint range_from (fuel : nat) (i n step : nat) : list nat :=
  match fuel with
  | 0 => []
  | S fuel => if i <? n then i :: range_from fuel (i + step) n step else []
  end.

(** What [range(0, n, step)] ends in: a [ValueError] for a zero step, no
    index for a negative step, and the indices otherwise. *)
Inductive ranged :=
| ValueError
| Indices (l : list nat).

Definition range (n : nat) (step : Z) : ranged :=
  if (step =? 0)%Z then ValueError
  else if (step <? 0)%Z then Indices []
  else Indices (range_from n 0 n (Z.to_nat step)).

(** [l[i:i + batch_size]] for indices that are not negative. *)
Definition slice {A} (l : list A) (i j : nat) : list A :=
  take (j - i) (drop i l).

(** The batches of the loops of [generate_embeddings] and [index_chunks]:
    [l[i:i + batch_size]] for [i] in [range(0, len(l), batch_size)]. *)
Definition batches {A} (l : list A) (batch_size : Z) : option (list (list A)) :=
  match range (length l) batch_size with
  | ValueError => None
  | Indices idx => Some (map (λ i, slice l i (i + Z.to_nat batch_size)) idx)
  end.

Section embeddings.
Context {E : Type}.

(** [[e.embedding for e in response.data]] for the response the service
    gives to one batch. *)
Variable create : list string → list E.

(** [generate_embeddings]; [None] stands for the [ValueError] of a zero
    [batch_size]. *)
Definition generate_embeddings (texts : list string) (batch_size : Z)
  : option (list E) :=
  bs ← batches texts batch_size; Some (concat (map create bs)).

End embeddings.

(** [str(n)] for an [int]. *)
Definition str (n : Z) : string := pretty n.

(** The [id] of the index document [index_chunks] builds for a chunk. *)
Definition index_id (document_id : string) (chunk : Chunk.t) : string :=
  document_id +:+ "-" +:+ str (Chunk.chunk_id chunk).

(** The [id]s of the documents [index_chunks] uploads, in order: one for
    each pair of [zip(chunks, embeddings)]. *)
Definition index_ids {E} (document_id : string) (chunks : list Chunk.t)
    (embeddings : list E) : list string :=
  map (λ ce, index_id document_id ce.1) (zip chunks embeddings).

(** How far [process_document] gets between the lookup of the metadata
    and the calls to the services: it fails for want of text or of chunks,
    or goes on with the pages and the chunks. *)
Inductive progress :=
| Failed (reason : string)
| Chunked (pages : list Page.t) (chunks : list Chunk.t).

Section process.
Variable count_tokens : string → nat.
Variables CHUNK_SIZE CHUNK_OVERLAP : Z.

Definition process_document (reader : option (list extracted)) : progress :=
  let pages := extract_text_from_pdf reader in
  if negb (nonempty pages) then Failed "no text"
  else
    let chunks := chunk_text count_tokens CHUNK_SIZE pages CHUNK_OVERLAP in
    if negb (nonempty chunks) then Failed "no chunks"
    else Chunked pages chunks.

End process.

End Pipeline.

(** * Properties *)

#[local] Set Warnings "-clear-no-such-hyp".

(** ** Strings *)

Module PyFacts.

Lemma str_app_cons (c : ascii) (s1 s2 : string) :
  String c s1 +:+ s2 = String c (s1 +:+ s2).
Proof. reflexivity. Qed.

Lemma str_app_nil_l (s : string) : "" +:+ s = s.
Proof. reflexivity. Qed.

Lemma str_app_nil_r (s : string) : s +:+ "" = s.
Proof. induction s as [|c s IH]; [done|]. by rewrite str_app_cons, IH. Qed.

Lemma str_app_assoc (s1 s2 s3 : string) :
  (s1 +:+ s2) +:+ s3 = s1 +:+ (s2 +:+ s3).
Proof. induction s1 as [|c s1 IH]; [done|]. by rewrite !str_app_cons, IH. Qed.

Lemma str_length_app (s1 s2 : string) :
  String.length (s1 +:+ s2) = String.length s1 + String.length s2.
Proof.
  induction s1 as [|c s1 IH]; [done|]. rewrite str_app_cons. simpl. by rewrite IH.
Qed.

Lemma contains_true (x : string) (xs : list string) :
  Py.contains x xs = true ↔ x ∈ xs.
Proof. unfold Py.contains. apply bool_decide_eq_true. Qed.

Lemma contains_false (x : string) (xs : list string) :
  Py.contains x xs = false ↔ x ∉ xs.
Proof. unfold Py.contains. apply bool_decide_eq_false. Qed.

Lemma truthy_true (s : string) : Py.truthy s = true ↔ s ≠ "".
Proof. destruct s; simpl; split; intros; congruence. Qed.

Lemma truthy_app (a b : string) :
  Py.truthy (a +:+ b) = Py.truthy a || Py.truthy b.
Proof. destruct a; [done|]. by rewrite str_app_cons. Qed.

End PyFacts.

(** ** Access policy *)

Module AuthSpec.
Import Models Auth PyFacts.

Lemma affiliation_Some (c : UserClaims) (a : string) :
  affiliation c = Some a ↔ party_affiliation c = Some a ∧ a ≠ "".
Proof.
  unfold affiliation. destruct (party_affiliation c) as [b|]; [|naive_solver].
  destruct b; simpl; naive_solver.
Qed.

Lemma affiliation_None (c : UserClaims) :
  affiliation c = None ↔
  party_affiliation c = None ∨ party_affiliation c = Some "".
Proof.
  unfold affiliation. destruct (party_affiliation c) as [b|]; [|naive_solver].
  destruct b; simpl; naive_solver.
Qed.

Lemma party_name_elem (a : string) (d : DocumentMetadata) :
  a ∈ map party_name (parties d) ↔ ∃ p, p ∈ parties d ∧ party_name p = a.
Proof.
  change (map party_name (parties d)) with (party_name <$> parties d).
  rewrite list_elem_of_fmap. naive_solver.
Qed.

(** C2. A confidential document is accessible exactly to claims whose roles
    include Hearing_Panel: with that role absent the decision is false
    whatever the other roles and the party affiliation are. *)
Theorem confidential_only_hearing_panel (c : UserClaims) (d : DocumentMetadata) :
  confidentiality_level d = CONFIDENTIAL →
  (can_access_document c d = true ↔ "Hearing_Panel" ∈ roles c).
Proof.
  intros Hlevel. unfold can_access_document. rewrite Hlevel.
  apply contains_true.
Qed.

(** A Staff member affiliated with a party of a confidential document. *)
Lemma confidential_only_hearing_panel_witness :
  let c := Samples.claims ["Staff"] (Some "Benga Mining") in
  let d := Samples.document CONFIDENTIAL ["Benga Mining"] in
  confidentiality_level d = CONFIDENTIAL ∧
  (can_access_document c d = true ↔ "Hearing_Panel" ∈ roles c) ∧
  can_access_document c d = false.
Proof.
  split; [reflexivity|]. split; [|reflexivity].
  apply (confidential_only_hearing_panel
           (Samples.claims ["Staff"] (Some "Benga Mining"))
           (Samples.document CONFIDENTIAL ["Benga Mining"])).
  reflexivity.
Defined.

(** C3, as the code has it. A protected_a document is accessible exactly
    when the roles include Staff or Hearing_Panel, or the claims carry a
    party_affiliation that is not the empty string and equals, character
    for character, the name of a party of the document. *)
Theorem protected_a_access (c : UserClaims) (d : DocumentMetadata) :
  confidentiality_level d = PROTECTED_A →
  (can_access_document c d = true ↔
     "Staff" ∈ roles c ∨ "Hearing_Panel" ∈ roles c ∨
     ∃ a p, party_affiliation c = Some a ∧ a ≠ "" ∧
            p ∈ parties d ∧ party_name p = a).
Proof.
  intros Hlevel. unfold can_access_document. rewrite Hlevel.
  destruct (Py.contains "Staff" (roles c)) eqn:Hs.
  { apply contains_true in Hs. simpl. naive_solver. }
  destruct (Py.contains "Hearing_Panel" (roles c)) eqn:Hp.
  { apply contains_true in Hp. simpl. naive_solver. }
  apply contains_false in Hs, Hp. simpl.
  destruct (affiliation c) as [a|] eqn:Ha.
  - apply affiliation_Some in Ha as [Ha Hne]. simpl.
    destruct (Py.contains a _) eqn:Hin.
    + apply contains_true, party_name_elem in Hin as (p & Hp1 & Hp2).
      split; [|done]. intros _. right; right. by exists a, p.
    + apply contains_false in Hin. split; [done|].
      intros [?|[?|(a' & p & Ha' & _ & Hin' & Hname)]]; [done..|].
      exfalso. apply Hin. apply party_name_elem.
      exists p. split; [done|]. congruence.
  - split; [done|].
    intros [?|[?|(a' & p & Ha' & Hne & _)]]; [done..|].
    assert (affiliation c = Some a') as Hc by (by apply affiliation_Some).
    congruence.
Qed.

(** The Intervener demo user and a protected_a document of its party. *)
Lemma protected_a_access_witness :
  let c := Samples.claims ["Intervener"]
             (Some "Crowsnest Pass Residents Association") in
  let d := Samples.document PROTECTED_A
             ["Benga Mining"; "Crowsnest Pass Residents Association"] in
  confidentiality_level d = PROTECTED_A ∧
  can_access_document c d = true ∧
  (can_access_document c d = true ↔
     "Staff" ∈ roles c ∨ "Hearing_Panel" ∈ roles c ∨
     ∃ a p, party_affiliation c = Some a ∧ a ≠ "" ∧
            p ∈ parties d ∧ party_name p = a).
Proof.
  split; [reflexivity|]. split; [reflexivity|].
  apply (protected_a_access
           (Samples.claims ["Intervener"]
              (Some "Crowsnest Pass Residents Association"))
           (Samples.document PROTECTED_A
              ["Benga Mining"; "Crowsnest Pass Residents Association"])).
  reflexivity.
Defined.

(** C3 as stated fails where the affiliation is the empty string: the
    claims carry an affiliation equal to the name of a party of the
    protected_a document, and access is refused. *)
Lemma protected_a_empty_affiliation :
  let c := Samples.claims [] (Some "") in
  let d := Samples.document PROTECTED_A [""] in
  confidentiality_level d = PROTECTED_A ∧
  (∃ a p, party_affiliation c = Some a ∧ p ∈ parties d ∧ party_name p = a) ∧
  can_access_document c d = false.
Proof.
  split; [reflexivity|]. split; [|reflexivity].
  eexists "", _. split; [reflexivity|]. split; [left|reflexivity].
Qed.

(** The keys of [DEMO_USERS]. *)
Lemma DEMO_USERS_keys (k : string) :
  is_Some (DEMO_USERS !! k) ↔
  k ∈ ["Hearing_Panel"; "Staff"; "Intervener"; "Public"].
Proof.
  unfold DEMO_USERS. rewrite !lookup_insert_is_Some, lookup_empty, is_Some_alt.
  rewrite !elem_of_cons, elem_of_nil. naive_solver.
Qed.

Lemma valid_demo_role_None (role : option string) :
  (∀ r, role = Some r → r = "" ∨ DEMO_USERS !! r = None) →
  valid_demo_role role = None.
Proof.
  intros H. unfold valid_demo_role. destruct role as [r|]; [|done].
  destruct (H r eq_refl) as [->|Hr]; [done|].
  rewrite Hr. by rewrite andb_false_r.
Qed.

(** C10. With no valid X-Demo-Role header, no valid DEMO_ROLE value and no
    claims attached by a middleware, [get_current_user] looks up the key
    AER_Staff, which [DEMO_USERS] does not hold (its keys are Hearing_Panel,
    Staff, Intervener and Public): in the development environment, the
    default, the call ends in a KeyError, and so does the fallback that
    follows the credential check in any other environment. *)
Theorem get_current_user_default_key_missing
    (environ : gmap string string) (request : Request)
    (creds : option HTTPAuthorizationCredentials) (x_demo_role : option string) :
  (∀ r, x_demo_role = Some r → r = "" ∨ DEMO_USERS !! r = None) →
  (∀ r, environ !! "DEMO_ROLE" = Some r → r = "" ∨ DEMO_USERS !! r = None) →
  state_user_claims request = None →
  (∀ k, is_Some (DEMO_USERS !! k) ↔
        k ∈ ["Hearing_Panel"; "Staff"; "Intervener"; "Public"]) ∧
  DEMO_USERS !! "AER_Staff" = None ∧
  (default "development" (environ !! "ENVIRONMENT") = "development" →
   get_current_user environ request creds x_demo_role = KeyError "AER_Staff") ∧
  (default "development" (environ !! "ENVIRONMENT") ≠ "development" →
   is_Some creds →
   get_current_user environ request creds x_demo_role = KeyError "AER_Staff").
Proof.
  intros Hheader Henv Hstate.
  split; [exact DEMO_USERS_keys|]. split; [reflexivity|].
  unfold get_current_user.
  rewrite (valid_demo_role_None _ Hheader), (valid_demo_role_None _ Henv), Hstate.
  split.
  - intros Hdev. by rewrite bool_decide_eq_true_2.
  - intros Hprod [cr ->]. by rewrite bool_decide_eq_false_2.
Qed.

(** A request with no header, an empty environment and no credentials, and
    a request in production that carries a bearer token. *)
Lemma get_current_user_default_key_missing_witness :
  get_current_user ∅ {| state_user_claims := None |} None None
    = KeyError "AER_Staff" ∧
  get_current_user {[ "ENVIRONMENT" := "production" ]}
      {| state_user_claims := None |}
      (Some {| scheme := "Bearer"; credentials := "token" |}) (Some "Admin")
    = KeyError "AER_Staff".
Proof.
  split.
  - refine (proj1 (proj2 (proj2 (get_current_user_default_key_missing ∅
             {| state_user_claims := None |} None None _ _ _))) _);
      by vm_compute.
  - refine (proj2 (proj2 (proj2 (get_current_user_default_key_missing
             {[ "ENVIRONMENT" := "production" ]}
             {| state_user_claims := None |}
             (Some {| scheme := "Bearer"; credentials := "token" |})
             (Some "Admin") _ _ _))) _ _).
    + intros r [= <-]. by right.
    + intros r Hr. vm_compute in Hr. discriminate Hr.
    + reflexivity.
    + vm_compute. intros Heq. discriminate Heq.
    + by eexists.
Defined.

End AuthSpec.

(** ** The security filter *)

Module FilterSpec.
Import Models Auth OData Filtering PyFacts AuthSpec.

Lemma lex_run_app (st : lex_state) (s1 s2 : string) :
  lex_run st (s1 +:+ s2) =
  '(ts, st') ← lex_run st s1;
  '(ts', st'') ← lex_run st' s2;
  Some (ts ++ ts', st'').
Proof.
  revert st. induction s1 as [|c s1 IH]; intros st.
  - rewrite str_app_nil_l. simpl. destruct (lex_run st s2) as [[ts st']|]; done.
  - rewrite str_app_cons. simpl.
    destruct (lex_step st c) as [[ts st']|]; [|done]. simpl.
    rewrite IH. destruct (lex_run st' s1) as [[ts1 st1]|]; [|done]. simpl.
    destruct (lex_run st1 s2) as [[ts2 st2]|]; [|done]. simpl.
    by rewrite (assoc (++)).
Qed.

(** Inside a literal, a text with no quote is read as it stands. *)
Lemma lex_run_literal (acc a : string) :
  quote_free a = true →
  lex_run (InLit acc) a = Some ([], InLit (acc +:+ a)).
Proof.
  revert acc. induction a as [|c a IH]; intros acc Hq.
  - by rewrite str_app_nil_r.
  - simpl in Hq. apply andb_true_iff in Hq as [Hc Ha].
    apply negb_true_iff in Hc. simpl. rewrite Hc. simpl.
    rewrite (IH _ Ha). simpl. unfold snoc. by rewrite str_app_assoc.
Qed.

Lemma eval_And env doc e1 e2 :
  eval env doc (And e1 e2) =
  b1 ← eval env doc e1; b2 ← eval env doc e2; Some (b1 && b2).
Proof. reflexivity. Qed.

Lemma eval_Or env doc e1 e2 :
  eval env doc (Or e1 e2) =
  b1 ← eval env doc e1; b2 ← eval env doc e2; Some (b1 || b2).
Proof. reflexivity. Qed.

(** [parties/any(p: p eq 'a')] is membership of [a] in [parties]. *)
Lemma eval_any_eq (env : list (string * string)) (doc : IndexDoc) (a : string) :
  eval env doc (Any "parties" "p" (Cmp Eq (OName "p") (OLit a)))
  = Some (Py.contains a (parties doc)).
Proof.
  simpl. induction (parties doc) as [|x xs IH].
  - done.
  - simpl. rewrite IH. simpl. f_equal.
    unfold Py.contains.
    destruct (String.eqb_spec x a) as [->|Hne].
    + simpl. symmetry. apply bool_decide_eq_true. left.
    + simpl. apply bool_decide_ext. rewrite elem_of_cons. naive_solver.
Qed.

(** The filter of claims with an affiliation and neither Staff nor
    Hearing_Panel, for an affiliation with no quote in it. *)
Lemma parse_party_filter (a : string) :
  quote_free a = true →
  parse_filter (Py.join " and "
         ["confidentialityLevel ne 'confidential'";
          "(confidentialityLevel eq 'public' or "
          +:+ "parties/any(p: p eq '" +:+ a +:+ "'))"])
  = Some (And (Cmp Ne (OName "confidentialityLevel") (OLit "confidential"))
            (Or (Cmp Eq (OName "confidentialityLevel") (OLit "public"))
               (Any "parties" "p" (Cmp Eq (OName "p") (OLit a))))).
Proof.
  intros Hq. unfold parse_filter, lex. simpl Py.join.
  rewrite <- !str_app_assoc, str_app_assoc.
  rewrite lex_run_app.
  match goal with
  | |- context [lex_run Idle ?p] =>
      let r := eval vm_compute in (lex_run Idle p) in
      change (lex_run Idle p) with r
  end.
  simpl. rewrite lex_run_app, (lex_run_literal _ _ Hq). reflexivity.
Qed.

(** Where no quote stands in the affiliation, the filter decides as
    [can_access_document] does. *)
Lemma filter_matches_access_quote_free (c : UserClaims) (d : DocumentMetadata) :
  (∀ a, affiliation c = Some a → quote_free a = true) →
  security_decision (build_search_filter c) d = Some (can_access_document c d).
Proof.
  intros Hq. unfold build_search_filter, can_access_document.
  destruct (Py.contains "Hearing_Panel" (roles c)) eqn:Hp;
    destruct (Py.contains "Staff" (roles c)) eqn:Hs; simpl.
  - by destruct (confidentiality_level d).
  - by destruct (confidentiality_level d).
  - unfold security_decision, index_doc.
    by destruct (confidentiality_level d); vm_compute.
  - destruct (affiliation c) as [a|] eqn:Ha.
    + unfold security_decision, eval_filter.
      rewrite (parse_party_filter a (Hq a eq_refl)).
      replace (Py.truthy _) with true by done.
      cbn [mbind option_bind].
      rewrite eval_And, eval_Or, eval_any_eq.
      unfold index_doc; simpl.
      destruct (confidentiality_level d); simpl; try done.
      by destruct (Py.contains a _).
    + unfold security_decision, index_doc.
      by destruct (confidentiality_level d); vm_compute.
Qed.

(** C1 at an affiliation that holds an apostrophe. The text built for
    "O'Chiese First Nation" is not a filter, the apostrophe ending the
    literal early, while [can_access_document] grants that party its own
    protected_a document; and the text built for a crafted affiliation is a
    filter that names a second party, and admits a protected_a document of
    that party, which [can_access_document] refuses. *)
Theorem filter_diverges_on_quoted_affiliation :
  let c1 := Samples.claims ["Intervener"] (Some "O'Chiese First Nation") in
  let d1 := Samples.document PROTECTED_A ["O'Chiese First Nation"] in
  let f1 := "confidentialityLevel ne 'confidential' and "
            +:+ "(confidentialityLevel eq 'public' or "
            +:+ "parties/any(p: p eq 'O'Chiese First Nation'))" in
  let c2 := Samples.claims ["Intervener"] (Some "x' or p eq 'Benga Mining") in
  let d2 := Samples.document PROTECTED_A ["Benga Mining"] in
  let f2 := "confidentialityLevel ne 'confidential' and "
            +:+ "(confidentialityLevel eq 'public' or "
            +:+ "parties/any(p: p eq 'x' or p eq 'Benga Mining'))" in
  build_search_filter c1 = Some f1 ∧
  lex f1 = None ∧
  security_decision (build_search_filter c1) d1 = None ∧
  can_access_document c1 d1 = true ∧
  build_search_filter c2 = Some f2 ∧
  parse_filter f2
    = Some (And (Cmp Ne (OName "confidentialityLevel") (OLit "confidential"))
              (Or (Cmp Eq (OName "confidentialityLevel") (OLit "public"))
                 (Any "parties" "p"
                    (Or (Cmp Eq (OName "p") (OLit "x"))
                        (Cmp Eq (OName "p") (OLit "Benga Mining")))))) ∧
  security_decision (build_search_filter c2) d2 = Some true ∧
  can_access_document c2 d2 = false.
Proof. repeat split; by vm_compute. Qed.

(** C8, as the code has it. The filter is absent exactly when the roles
    include Hearing_Panel, and present otherwise; for claims with neither
    Staff nor Hearing_Panel and no party affiliation (none, or the empty
    string) it is the text below, which admits the public documents only. *)
Theorem build_search_filter_presence (c : UserClaims) :
  (build_search_filter c = None ↔ "Hearing_Panel" ∈ roles c) ∧
  ("Staff" ∉ roles c → "Hearing_Panel" ∉ roles c →
   party_affiliation c = None ∨ party_affiliation c = Some "" →
   build_search_filter c
     = Some ("confidentialityLevel ne 'confidential' and "
             +:+ "confidentialityLevel eq 'public'") ∧
   ∀ d, security_decision (build_search_filter c) d
        = Some (bool_decide (confidentiality_level d = PUBLIC))).
Proof.
  split.
  - unfold build_search_filter. rewrite <- contains_true.
    destruct (Py.contains "Hearing_Panel" (roles c)); simpl.
    + by destruct (Py.contains "Staff" (roles c)).
    + destruct (Py.contains "Staff" (roles c)); simpl; [done|].
      by destruct (affiliation c).
  - intros Hs%contains_false Hp%contains_false Ha%affiliation_None.
    assert (build_search_filter c
            = Some ("confidentialityLevel ne 'confidential' and "
                    +:+ "confidentialityLevel eq 'public'")) as Hf.
    { unfold build_search_filter. by rewrite Hs, Hp, Ha. }
    split; [done|]. intros d. rewrite Hf.
    unfold security_decision, index_doc.
    by destruct (confidentiality_level d); vm_compute.
Qed.

(** The Public demo user: no role and no affiliation. *)
Lemma build_search_filter_presence_witness :
  let c := Samples.claims [] None in
  ("Staff" ∉ roles c) ∧ ("Hearing_Panel" ∉ roles c) ∧
  party_affiliation c = None ∧
  build_search_filter c
    = Some ("confidentialityLevel ne 'confidential' and "
            +:+ "confidentialityLevel eq 'public'") ∧
  security_decision (build_search_filter c)
      (Samples.document PROTECTED_A ["Benga Mining"]) = Some false.
Proof.
  assert ("Staff" ∉ roles (Samples.claims [] None)) as Hs by apply not_elem_of_nil.
  assert ("Hearing_Panel" ∉ roles (Samples.claims [] None)) as Hp
    by apply not_elem_of_nil.
  split; [done|]. split; [done|]. split; [done|].
  destruct (proj2 (build_search_filter_presence (Samples.claims [] None))
              Hs Hp (or_introl eq_refl)) as [Hf Hd].
  split; [exact Hf|].
  exact (Hd (Samples.document PROTECTED_A ["Benga Mining"])).
Defined.

(** C8 as stated fails for the Hearing_Panel demo user: no filter is
    built. *)
Lemma build_search_filter_absent_for_panel :
  ∃ c, DEMO_USERS !! "Hearing_Panel" = Some c ∧ build_search_filter c = None.
Proof. eexists. split; reflexivity. Qed.

End FilterSpec.

(** ** Snippets *)

Module SnippetSpec.
Import Search PyFacts.

Lemma prefix_app (sub s : string) :
  String.prefix sub s = true ↔ ∃ post, s = sub +:+ post.
Proof.
  revert s. induction sub as [|c sub IH]; intros s.
  - split; [intros _; by exists s|]. intros _. by destruct s.
  - destruct s as [|c' s]; simpl.
    + split; [done|]. intros [post Hp]. by rewrite str_app_cons in Hp.
    + destruct (Ascii.ascii_dec c c') as [->|Hne].
      * rewrite IH. split; intros [post Hp]; exists post.
        -- by rewrite str_app_cons, Hp.
        -- rewrite str_app_cons in Hp. by simplify_eq.
      * split; [done|]. intros [post Hp]. rewrite str_app_cons in Hp.
        by simplify_eq.
Qed.

Lemma occurs_at_nil (sub : string) (j : nat) :
  occurs_at sub "" j → sub = "" ∧ j = 0.
Proof.
  intros (pre & post & Hs & Hlen).
  destruct pre; [|by rewrite str_app_cons in Hs].
  rewrite str_app_nil_l in Hs. destruct sub; [|by rewrite str_app_cons in Hs].
  simpl in Hlen. done.
Qed.

Lemma occurs_at_0 (sub s : string) :
  occurs_at sub s 0 ↔ String.prefix sub s = true.
Proof.
  rewrite prefix_app. split.
  - intros (pre & post & Hs & Hlen). destruct pre; [|done]. by exists post.
  - intros [post Hs]. by exists "", post.
Qed.

Lemma occurs_at_S (sub : string) (c : ascii) (s : string) (j : nat) :
  occurs_at sub (String c s) (S j) ↔ occurs_at sub s j.
Proof.
  split.
  - intros (pre & post & Hs & Hlen). destruct pre as [|c' pre]; [done|].
    rewrite str_app_cons in Hs. simplify_eq. simpl in Hlen.
    exists pre, post. split; [done|lia].
  - intros (pre & post & Hs & Hlen). exists (String c pre), post.
    rewrite str_app_cons, Hs. simpl. by rewrite Hlen.
Qed.

(** [rfind_from] keeps [best] when [sub] occurs nowhere in [s], and
    otherwise answers with the last place it occurs. *)
Lemma rfind_from_cases (sub s : string) (i : nat) (best : Z) :
  (Py.rfind_from sub s i best = best ∧ ∀ j, ¬ occurs_at sub s j) ∨
  (∃ j, last_occurrence sub s j ∧ Py.rfind_from sub s i best = Z.of_nat (i + j)).
Proof.
  revert i best. induction s as [|c s IH]; intros i best.
  - cbn [Py.rfind_from]. destruct (String.prefix sub "") eqn:Hp.
    + right. exists 0. rewrite Nat.add_0_r. split; [|done].
      split; [by apply occurs_at_0|].
      intros j Hj. apply occurs_at_nil in Hj. lia.
    + left. split; [done|]. intros j Hj.
      destruct (occurs_at_nil _ _ Hj) as [-> _]. done.
  - cbn [Py.rfind_from].
    set (best' := if String.prefix sub (String c s) then Z.of_nat i else best).
    destruct (IH (S i) best') as [[Heq Hnone]|(j & [Hocc Hlast] & Heq)].
    + rewrite Heq. subst best'.
      destruct (String.prefix sub (String c s)) eqn:Hp.
      * right. exists 0. rewrite Nat.add_0_r. split; [|done].
        split; [by apply occurs_at_0|].
        intros [|j] Hj; [lia|]. apply occurs_at_S in Hj. by apply Hnone in Hj.
      * left. split; [done|]. intros [|j] Hj.
        -- apply occurs_at_0 in Hj. congruence.
        -- apply occurs_at_S in Hj. by apply Hnone in Hj.
    + right. exists (S j). split.
      * split; [by apply occurs_at_S|].
        intros [|k] Hk; [lia|]. apply occurs_at_S, Hlast in Hk. lia.
      * rewrite Heq. f_equal. lia.
Qed.

Lemma last_occurrence_unique (sub s : string) (i j : nat) :
  last_occurrence sub s i → last_occurrence sub s j → i = j.
Proof. intros [Hi Hil] [Hj Hjl]. apply Hil in Hj. apply Hjl in Hi. lia. Qed.

Lemma rfind_cases (s sub : string) :
  (Py.rfind s sub = (-1)%Z ∧ ∀ j, ¬ occurs_at sub s j) ∨
  (∃ j, last_occurrence sub s j ∧ Py.rfind s sub = Z.of_nat j).
Proof. apply (rfind_from_cases sub s 0 (-1)). Qed.

Lemma rfind_last (s sub : string) (j : nat) :
  last_occurrence sub s j → Py.rfind s sub = Z.of_nat j.
Proof.
  intros Hj.
  destruct (rfind_cases s sub) as [[_ Hnone]|(k & Hk & ->)].
  - destruct Hj as [Hj _]. by apply Hnone in Hj.
  - f_equal. eauto using last_occurrence_unique.
Qed.

Lemma substring_0_all (n : nat) (s : string) :
  String.length s ≤ n → String.substring 0 n s = s.
Proof.
  revert n. induction s as [|c s IH]; intros [|n] Hn; simpl in *;
    try done; try lia.
  f_equal. apply IH. lia.
Qed.

Lemma slice_to_nonneg (s : string) (stop : Z) :
  (0 ≤ stop)%Z → Py.slice_to s stop = String.substring 0 (Z.to_nat stop) s.
Proof.
  intros Hs. unfold Py.slice_to.
  destruct (Z.ltb_spec stop 0); [lia|].
  destruct (Z.le_gt_cases stop (Z.of_nat (String.length s))).
  - by rewrite Z.min_l.
  - rewrite Z.min_r by lia. rewrite Nat2Z.id.
    rewrite !substring_0_all; [done|lia..].
Qed.

(** C7, as the code has it. For a [max_length] that is not negative, with
    [s] the content stripped of the whitespace around it and [t] the first
    [max_length] characters of [s]: the snippet is [s] when [s] is no longer
    than [max_length]; otherwise it is [t] cut just after the last period
    that a space follows, when that period stands at an index above
    [max_length // 2]; failing that, [t] cut before its last space and
    followed by the marker, when that space is not at index 0; failing
    that, [t] followed by the marker. *)
Theorem highlight_snippet_cases (content : string) (max_length : Z) :
  (0 ≤ max_length)%Z →
  let s := Py.strip content in
  let t := String.substring 0 (Z.to_nat max_length) s in
  let r := highlight_snippet content max_length in
  ((Z.of_nat (String.length s) ≤ max_length)%Z → r = s) ∧
  ((max_length < Z.of_nat (String.length s))%Z →
     (∀ p, last_occurrence ". " t p → (max_length `div` 2 < Z.of_nat p)%Z →
           r = String.substring 0 (p + 1) t) ∧
     ((∀ p, occurs_at ". " t p → (Z.of_nat p ≤ max_length `div` 2)%Z) →
        (∀ q, last_occurrence " " t q → 0 < q →
              r = String.substring 0 q t +:+ "...") ∧
        ((∀ q, occurs_at " " t q → q = 0) → r = t +:+ "..."))).
Proof.
  intros Hm s t r. subst r. unfold highlight_snippet. fold s.
  rewrite (slice_to_nonneg s max_length Hm). fold t.
  split.
  { intros Hle.
    by destruct (Z.leb_spec (Z.of_nat (String.length s)) max_length); [|lia]. }
  intros Hlt.
  destruct (Z.leb_spec (Z.of_nat (String.length s)) max_length); [lia|].
  split.
  { intros p Hp Hmid. rewrite (rfind_last _ _ _ Hp).
    destruct (Z.ltb_spec (max_length `div` 2) (Z.of_nat p)); [|lia].
    rewrite slice_to_nonneg by lia. f_equal. lia. }
  intros Hno.
  assert ((max_length `div` 2 <? Py.rfind t ". ")%Z = false) as ->.
  { apply Z.ltb_ge.
    destruct (rfind_cases t ". ") as [[-> _]|(p & [Hp _] & ->)].
    - assert (0 ≤ max_length `div` 2)%Z by (apply Z.div_pos; lia). lia.
    - by apply Hno. }
  split.
  - intros q Hq Hpos. rewrite (rfind_last _ _ _ Hq).
    destruct (Z.ltb_spec 0 (Z.of_nat q)); [|lia].
    rewrite slice_to_nonneg by lia. by rewrite Nat2Z.id.
  - intros Hq.
    assert ((0 <? Py.rfind t " ")%Z = false) as ->; [|done].
    apply Z.ltb_ge.
    destruct (rfind_cases t " ") as [[-> _]|(q & [Hq' _] & ->)]; [lia|].
    apply Hq in Hq'. lia.
Qed.

(** Content of 37 characters and a [max_length] of 20: the last period
    of the 20-character prefix stands at index 11, above the midpoint 10. *)
Lemma highlight_snippet_cases_witness :
  (0 ≤ 20)%Z ∧
  last_occurrence ". " "Hello world. This is" 11 ∧
  highlight_snippet "  Hello world. This is a test of things " 20
    = "Hello world.".
Proof.
  assert (last_occurrence ". " "Hello world. This is" 11) as Hlast.
  { split.
    - by exists "Hello world", "This is".
    - intros j Hj.
      destruct (SnippetSpec.rfind_cases "Hello world. This is" ". ")
        as [[_ Hnone]|(k & Hk & Hr)]; [by apply Hnone in Hj|].
      assert (Py.rfind "Hello world. This is" ". " = 11%Z) as Hv
        by (by vm_compute).
      rewrite Hv in Hr. assert (k = 11) as -> by lia. by apply Hk. }
  split; [lia|]. split; [exact Hlast|].
  destruct (highlight_snippet_cases
              "  Hello world. This is a test of things " 20 ltac:(lia))
    as [_ Hlong].
  destruct (Hlong ltac:(vm_compute; reflexivity)) as [Hperiod _].
  exact (Hperiod 11 Hlast ltac:(vm_compute; reflexivity)).
Defined.

(** C7 as stated fails on whitespace around the content, which is within
    [max_length] and is not returned unchanged, and on a negative
    [max_length], where the prefix ["abc"] holds no period and no space and
    the snippet is empty, not ["abc..."]. *)
Lemma highlight_snippet_not_unchanged :
  (Z.of_nat (String.length " a") ≤ 300)%Z ∧
  highlight_snippet " a" 300 = "a" ∧
  Py.slice_to "abcdef" (-3) = "abc" ∧
  highlight_snippet "abcdef" (-3) = "".
Proof. repeat split; by vm_compute. Qed.

End SnippetSpec.

(** ** Citations *)

Module CitationSpec.
Import Ingest.

(** C6, as the code has it. On the example text the citations are the
    statute citation, the directive with its section, and also the bare
    directive, which the first directive pattern matches on its own. *)
Theorem citations_of_example :
  extract_regulatory_citations Samples.citation_text
    ≡ₚ ["REDA s. 34"; "Directive 056"; "Directive 056 s. 2.1"] ∧
  citations Samples.citation_text
    = {[ "REDA s. 34"; "Directive 056"; "Directive 056 s. 2.1" ]}.
Proof.
  split.
  - assert (extract_regulatory_citations Samples.citation_text
            = ["REDA s. 34"; "Directive 056 s. 2.1"; "Directive 056"]) as ->
      by (by vm_compute).
    apply Permutation_skip, Permutation_swap.
  - by vm_compute.
Qed.

(** C6 as stated fails: the bare directive is one of the citations, and it
    is neither of the two the claim lists. *)
Lemma citations_of_example_hold_bare_directive :
  "Directive 056" ∈ extract_regulatory_citations Samples.citation_text ∧
  "Directive 056" ∉ ["REDA s. 34"; "Directive 056 s. 2.1"].
Proof.
  split.
  - assert (extract_regulatory_citations Samples.citation_text
            = ["REDA s. 34"; "Directive 056 s. 2.1"; "Directive 056"]) as ->
      by (by vm_compute).
    rewrite !elem_of_cons. auto.
  - rewrite !elem_of_cons, elem_of_nil. intros [H|[H|[]]]; discriminate H.
Qed.

End CitationSpec.

(** ** Chunking *)

Module ChunkerSpec.
Import Re Ingest PyFacts Trace.

(** *** Joined text *)

Lemma join_cons2 (sep x y : string) (l : list string) :
  Py.join sep (x :: y :: l) = x +:+ sep +:+ Py.join sep (y :: l).
Proof. reflexivity. Qed.

Lemma join_app (sep : string) (l1 l2 : list string) :
  l1 ≠ [] → l2 ≠ [] →
  Py.join sep (l1 ++ l2) = Py.join sep l1 +:+ sep +:+ Py.join sep l2.
Proof.
  intros H1 H2. induction l1 as [|x l1 IH]; [done|].
  destruct l1 as [|y l1].
  - destruct l2 as [|z l2]; [done|]. reflexivity.
  - change ((x :: y :: l1) ++ l2) with (x :: y :: (l1 ++ l2)).
    rewrite !join_cons2.
    change (y :: l1 ++ l2) with ((y :: l1) ++ l2).
    rewrite IH by done. by rewrite !str_app_assoc.
Qed.


Lemma join_suffix_drop (sep : string) (k : nat) (l : list string) :
  k < length l → is_suffix (Py.join sep (drop k l)) (Py.join sep l).
Proof.
  intros Hk. destruct k as [|k].
  { rewrite drop_0. by exists "". }
  rewrite <- (take_drop (S k) l) at 2.
  rewrite join_app.
  - exists (Py.join sep (take (S k) l) +:+ sep). by rewrite str_app_assoc.
  - destruct l; simpl in *; [lia|done].
  - intros Hd. apply (f_equal length) in Hd. rewrite length_drop in Hd.
    simpl in Hd. lia.
Qed.

Lemma last_n_1 {A} (l : list A) (x : A) : last_n 1 (l ++ [x]) = [x].
Proof.
  unfold last_n. rewrite length_app. simpl.
  replace (length l + 1 - 1) with (length l) by lia.
  by rewrite drop_app_length.
Qed.

(** *** The steps of the loop keep the trace *)

Lemma nonempty_true {A} (l : list A) : nonempty l = true ↔ l ≠ [].
Proof. destruct l; simpl; split; intros; congruence. Qed.

Lemma chain_snoc Over prev ps p :
  chain Over prev (ps ++ [p]) ↔
  chain Over prev ps ∧ linked Over (last_part prev ps) p.
Proof.
  revert prev. induction ps as [|q ps IH]; intros prev.
  - simpl. unfold last_part. simpl. naive_solver.
  - simpl. rewrite IH.
    assert (last_part (Some q) ps = last_part prev (q :: ps)) as ->.
    { unfold last_part. rewrite last_cons. by destruct (last ps). }
    naive_solver.
Qed.

Lemma last_part_snoc prev ps p : last_part prev (ps ++ [p]) = Some p.
Proof. unfold last_part. by rewrite last_snoc. Qed.

Lemma pending_linked Over b prev cc fc sep :
  pending_ok Over b prev cc fc → fc ≠ [] →
  linked Over prev {| carried := cc; fresh := fc; sep := sep |}.
Proof.
  unfold pending_ok, linked. simpl.
  destruct prev as [pp|]; [|done]. destruct cc as [u|]; [done|].
  destruct fc as [|s rest]; [done|]. intros [Hnone Hs] _. eauto.
Qed.

Lemma pending_weaken Over b prev cc fc :
  pending_ok Over b prev cc fc → pending_ok Over true prev cc fc.
Proof.
  unfold pending_ok. destruct prev; [|done]. destruct cc; [done|].
  destruct fc; [|done]. by intros [? _].
Qed.

Section steps.
Variable count_tokens : string → nat.
Variable chunk_size : Z.
Variable Over : string → Prop.

Local Abbreviation tokens := (tokens count_tokens).
Local Abbreviation sum_tokens := (sum_tokens count_tokens).
Local Abbreviation inv := (inv count_tokens Over).
Local Abbreviation sent_step := (sent_step count_tokens chunk_size).
Local Abbreviation para_step := (para_step count_tokens chunk_size).

Lemma sum_tokens_snoc l x : sum_tokens (l ++ [x]) = (sum_tokens l + tokens x)%Z.
Proof.
  induction l as [|y l IH]; simpl; [lia|]. 
  change (foldr _ _ (l ++ [x])) with (sum_tokens (l ++ [x])). rewrite IH.
  change (foldr _ _ l) with (sum_tokens l). lia.
Qed.

Lemma inv_weaken b done st : inv b done st → inv true done st.
Proof. intros []. econstructor; eauto using pending_weaken. Qed.

(** Appending a unit to the pending chunk. *)
Lemma inv_append b done st x page_num :
  inv b done st → x ≠ "" →
  (b = true → Over x) →
  inv false (done ++ [x])
    {| chunks := chunks st; chunk_id := chunk_id st;
       current_chunk := current_chunk st ++ [x];
       current_tokens := current_tokens st + tokens x;
       current_page := page_num |}.
Proof.
  intros [ps cc fc ??????? Htok Hne Hseps Hfresh Hparts] Hx Hover.
  apply (Inv _ _ _ _ _ ps cc (fc ++ [x])); simpl; try done.
  - rewrite Hcurrent. by rewrite (assoc (++)).
  - rewrite (assoc (++)). by rewrite Hunits.
  - unfold pending_ok in *. destruct (last_part None ps); [|done].
    destruct cc; [done|]. destruct Hpending as [Hnone Hfc].
    split; [done|]. destruct fc as [|s0 rest]; simpl; [|done].
    by apply Hover.
  - rewrite sum_tokens_snoc. by rewrite Htok.
  - apply Forall_app. split; [done|]. by apply Forall_singleton.
  - intros H. by apply app_eq_nil in H as [_ ?].
Qed.

(** The part a flush appends to the trace. *)
Lemma inv_flushed_part b done st sep :
  inv b done st → normalize sep = "" → current_chunk st ≠ [] →
  ∃ ps p,
    Trace.sep p = sep ∧
    units p = current_chunk st ∧
    map Chunk.content (chunks st ++ [make_chunk st sep])
      = map render (ps ++ [p]) ∧
    map Chunk.chunk_id (chunks st ++ [make_chunk st sep])
      = Z.of_nat <$> seq 0 (length (chunks st ++ [make_chunk st sep])) ∧
    (chunk_id st + 1)%Z
      = Z.of_nat (length (chunks st ++ [make_chunk st sep])) ∧
    chain Over None (ps ++ [p]) ∧
    concat (map fresh (ps ++ [p])) = done ∧
    Forall (λ p, normalize (Trace.sep p) = "") (ps ++ [p]) ∧
    Forall (λ p, fresh p ≠ [] ∧ Forall (λ u, u ≠ "") (units p)) (ps ++ [p]).
Proof.
  intros [ps cc fc ??????? Htok Hne Hseps Hfresh Hparts] Hsep Hcur.
  assert (fc ≠ []) as Hfc.
  { intros ->. rewrite (Hfresh eq_refl) in Hcurrent. by apply Hcur. }
  exists ps, {| carried := cc; fresh := fc; sep := sep |}.
  split; [done|]. split; [done|].
  split; [|split; [|split; [|split; [|split; [|split]]]]].
  - rewrite !map_app. simpl. rewrite Hcontents. f_equal.
    unfold render, units. simpl. by rewrite Hcurrent.
  - rewrite map_app, length_app. simpl. rewrite seq_app, fmap_app. simpl.
    by rewrite Hids, Hid.
  - rewrite length_app. simpl. rewrite Hid. lia.
  - apply chain_snoc. split; [done|]. by eapply pending_linked.
  - rewrite map_app, concat_app. simpl. by rewrite app_nil_r.
  - apply Forall_app. split; [done|]. by apply Forall_singleton.
  - apply Forall_app. split; [done|]. apply Forall_singleton. simpl.
    split; [done|]. unfold units. simpl. by rewrite <- Hcurrent.
Qed.

(** Flushing the pending chunk, joined by [sep], with nothing handed on. *)
Lemma inv_flush_none b done st sep :
  inv b done st → normalize sep = "" → current_chunk st ≠ [] →
  sep = Py.LFLF ∨ (sep = " " ∧ length (current_chunk st) = 1) →
  inv true done
    {| chunks := chunks st ++ [make_chunk st sep];
       chunk_id := chunk_id st + 1;
       current_chunk := [];
       current_tokens := 0;
       current_page := current_page st |}.
Proof.
  intros Hinv Hsep Hcur Hnone.
  destruct (inv_flushed_part b done st sep Hinv Hsep Hcur)
    as (ps & p & Hp & Hu & Hc & Hids & Hid & Hchain & Hunits & Hseps & Hparts).
  apply (Inv _ _ _ _ _ (ps ++ [p]) None []); simpl; try done.
  - by rewrite app_nil_r.
  - rewrite last_part_snoc. unfold pending_ok. split; [|done].
    unfold nothing_carried_from. by rewrite Hp, Hu.
Qed.

(** Flushing the pending chunk, joined by [sep], and starting the next one
    with [u], which the flushed chunk hands on, and the unit [x]. *)
Lemma inv_flush_seed b done st sep u x page_num :
  inv b done st → normalize sep = "" → current_chunk st ≠ [] →
  u ≠ "" → is_suffix u (Py.join sep (current_chunk st)) →
  (sep = Py.LFLF ∧ last (current_chunk st) = Some u) ∨
  (sep = " " ∧ 2 ≤ length (current_chunk st) ∧
   u = Py.join " " (last_n 2 (current_chunk st))) →
  x ≠ "" →
  inv false (done ++ [x])
    {| chunks := chunks st ++ [make_chunk st sep];
       chunk_id := chunk_id st + 1;
       current_chunk := [u; x];
       current_tokens := tokens u + tokens x;
       current_page := page_num |}.
Proof.
  intros Hinv Hsep Hcur Hu Hsuf Hfrom Hx.
  destruct (inv_flushed_part b done st sep Hinv Hsep Hcur)
    as (ps & p & Hp & Hunits_p & Hc & Hids & Hid & Hchain & Hunits & Hseps
        & Hparts).
  apply (Inv _ _ _ _ _ (ps ++ [p]) (Some u) [x]); simpl; try done.
  - by rewrite Hunits.
  - rewrite last_part_snoc. unfold pending_ok. split; [done|]. split.
    + unfold render. by rewrite Hp, Hunits_p.
    + unfold carried_from. by rewrite Hp, Hunits_p.
  - lia.
  - by repeat constructor.
Qed.

Lemma last_n_length {A} (n : nat) (l : list A) :
  n ≤ length l → length (last_n n l) = n.
Proof. intros Hn. unfold last_n. rewrite length_drop. lia. Qed.

Lemma join_two_truthy (sep : string) (l : list string) :
  length l = 2 → sep ≠ "" → Py.truthy (Py.join sep l) = true.
Proof.
  intros Hl Hsep. destruct l as [|x [|y [|z l]]]; simplify_eq/=.
  rewrite !truthy_app. destruct sep; [done|]. simpl. by rewrite orb_true_r.
Qed.

(** One sentence of an oversized paragraph. *)
Lemma sent_step_inv page_num done st sent :
  inv true done st → sent ≠ "" → Over sent →
  inv false (done ++ [sent]) (sent_step page_num st sent).
Proof.
  intros Hinv Hne Hov. unfold Ingest.sent_step.
  destruct (_ && nonempty (current_chunk st)) eqn:Hflush.
  - apply andb_true_iff in Hflush as [_ Hcur%nonempty_true].
    case_bool_decide as Hlen.
    + set (overlap_text := Py.join " " (last_n 2 (current_chunk st))).
      assert (Py.truthy overlap_text = true) as Htr.
      { apply join_two_truthy; [|done]. by apply last_n_length. }
      rewrite Htr.
      assert (overlap_text ≠ "") as Hne' by (by apply truthy_true).
      assert (is_suffix overlap_text (Py.join " " (current_chunk st))) as Hsuf.
      { apply join_suffix_drop. lia. }
      apply (inv_flush_seed true done st " " overlap_text sent page_num);
        try done.
      right. done.
    + simpl.
      assert (length (current_chunk st) = 1) as Hone.
      { destruct (current_chunk st) as [|? [|? ?]]; simpl in *; [done|done|lia]. }
      pose proof (inv_flush_none true done st " " Hinv eq_refl Hcur
                    (or_intror (conj eq_refl Hone))) as Hf.
      by apply (inv_append _ _ _ sent page_num) in Hf.
  - by apply (inv_append true).
Qed.

(** The loop over the sentences; after the first one the pending chunk is
    not empty. *)
Lemma sentences_inv page_num sents done st :
  inv true done st → Forall (λ s, s ≠ "" ∧ Over s) sents →
  inv true (done ++ sents) (foldl (sent_step page_num) st sents) ∧
  (sents ≠ [] → inv false (done ++ sents) (foldl (sent_step page_num) st sents)).
Proof.
  intros Hinv. induction sents as [|s sents IH] using rev_ind; intros Hall.
  - simpl. rewrite app_nil_r. done.
  - apply Forall_app in Hall as [Hall [[Hs Hov] _]%Forall_cons].
    destruct (IH Hall) as [IH1 _].
    rewrite foldl_snoc, (assoc (++)).
    assert (inv false ((done ++ sents) ++ [s])
              (sent_step page_num (foldl (sent_step page_num) st sents) s)) as H.
    { by apply sent_step_inv. }
    split; [by eapply inv_weaken|done].
Qed.

(** One paragraph. In the branch that flushes and seeds the next chunk the
    pending chunk is not empty, its tokens exceeding [chunk_size] less those
    of a paragraph within [chunk_size]. *)
Lemma para_step_inv page_num done st para :
  inv false done st →
  (Py.strip para ≠ "" → (chunk_size < tokens (Py.strip para))%Z →
   split_sentences (Py.strip para) ≠ [] ∧
   Forall (λ s, s ≠ "" ∧ Over s) (split_sentences (Py.strip para))) →
  inv false (done ++ para_units count_tokens chunk_size para)
      (para_step page_num st para).
Proof.
  intros Hinv Hsents. unfold Ingest.para_step, para_units.
  destruct (Py.truthy (Py.strip para)) eqn:Htr; simpl.
  2:{ by rewrite app_nil_r. }
  apply truthy_true in Htr.
  destruct (Z.ltb_spec chunk_size (tokens (Py.strip para))) as [Hbig|Hsmall].
  - destruct (Hsents Htr Hbig) as [Hne Hall].
    destruct (nonempty (current_chunk st)) eqn:Hcur.
    + apply nonempty_true in Hcur.
      pose proof (inv_flush_none false done st Py.LFLF Hinv eq_refl Hcur
                    (or_introl eq_refl)) as Hf.
      destruct (sentences_inv page_num _ done _ Hf Hall) as [_ H]. by apply H.
    + destruct (sentences_inv page_num _ done _ (inv_weaken _ _ _ Hinv) Hall)
        as [_ H]. by apply H.
  - destruct (Z.ltb_spec chunk_size (current_tokens st + tokens (Py.strip para)))
      as [Hover|Hfits].
    + assert (current_chunk st ≠ []) as Hcur.
      { destruct Hinv as [? ? ? ? ? ? ? ? ? ? Htok _ _ _ _]. intros Hnil.
        rewrite Hnil in Htok. simpl in Htok. lia. }
      rewrite (proj2 (nonempty_true _) Hcur).
      assert (∃ l x, current_chunk st = l ++ [x]) as (l & x & Hcc).
      { destruct (current_chunk st) as [|y l' _] using rev_ind; [done|]. eauto. }
      replace (last_n 1 (current_chunk st)) with [x]
        by (by rewrite Hcc, last_n_1).
      assert (x ≠ "") as Hx.
      { destruct Hinv as [? ? ? ? ? ? ? ? ? ? _ Hnonempty _ _ _].
        rewrite Hcc in Hnonempty. apply Forall_app in Hnonempty as [_ Hn].
        exact (proj1 (Forall_singleton _ _) Hn). }
      assert (is_suffix x (Py.join Py.LFLF (current_chunk st))) as Hsuf.
      { rewrite Hcc. pose proof (join_suffix_drop Py.LFLF (length l) (l ++ [x])) as Hd.
        rewrite drop_app_length in Hd. apply Hd. rewrite length_app. simpl. lia. }
      assert (last (current_chunk st) = Some x) as Hlast
        by (by rewrite Hcc, last_snoc).
      pose proof (inv_flush_seed false done st Py.LFLF x (Py.strip para) page_num
                    Hinv eq_refl Hcur Hx Hsuf (or_introl (conj eq_refl Hlast))
                    Htr) as Hf.
      simpl.
      replace (tokens x + (tokens (Py.strip para) + 0))%Z
        with (tokens x + tokens (Py.strip para))%Z by lia.
      exact Hf.
    + by apply (inv_append false).
Qed.

End steps.

(** *** Sentences and whitespace *)

Lemma snoc_ne (s : string) (c : ascii) : s +:+ String c "" ≠ "".
Proof. destruct s; by rewrite ?str_app_cons. Qed.

Lemma split_after_go_ne term st cur s : split_after_go term st cur s ≠ [].
Proof.
  revert st cur. induction s as [|c s IH]; intros st cur; [done|].
  simpl. destruct st as [a|].
  - destruct (a && Py.isspace c); [done|apply IH].
  - destruct (Py.isspace c); apply IH.
Qed.

(** Splitting a text that ends in text yields no empty piece. *)
Lemma split_after_go_nonempty term s st cur :
  ends_in_text s = true →
  (st = InText true → cur ≠ "") →
  Forall (λ u, u ≠ "") (split_after_go term st cur s).
Proof.
  revert st cur. induction s as [|c s IH]; intros st cur Hend Hcur; [done|].
  destruct s as [|c' s].
  { simpl in Hend. apply negb_true_iff in Hend. simpl. rewrite Hend.
    destruct st as [a|]; rewrite ?andb_false_r;
      apply Forall_singleton, snoc_ne. }
  assert (ends_in_text (String c' s) = true) as Hend' by done.
  remember (String c' s) as s' eqn:Hs'. clear Hs' Hend.
  cbn [split_after_go]. destruct st as [a|].
  - destruct (a && Py.isspace c) eqn:Hsplit.
    + apply andb_true_iff in Hsplit as [-> _].
      apply Forall_cons. split; [by apply Hcur|]. by apply IH.
    + apply IH; [done|]. intros _. apply snoc_ne.
  - destruct (Py.isspace c).
    + by apply IH.
    + apply IH; [done|]. intros _. apply snoc_ne.
Qed.

Lemma rstrip_ends_in_text (s : string) :
  Py.rstrip s ≠ "" → ends_in_text (Py.rstrip s) = true.
Proof.
  induction s as [|c s IH]; [done|]. simpl.
  destruct (Py.rstrip s) as [|c' r] eqn:Hr.
  - destruct (Py.isspace c) eqn:Hc; [done|]. intros _. simpl. by rewrite Hc.
  - intros _. change (ends_in_text (String c' r) = true). by apply IH.
Qed.

Lemma split_sentences_nonempty (para : string) :
  Py.strip para ≠ "" →
  split_sentences (Py.strip para) ≠ [] ∧
  Forall (λ u, u ≠ "") (split_sentences (Py.strip para)).
Proof.
  intros Hne. split; [apply split_after_go_ne|].
  apply split_after_go_nonempty; [|done].
  by apply rstrip_ends_in_text.
Qed.

(** *** Whitespace normalisation *)

Lemma normalize_app (s1 s2 : string) :
  normalize (s1 +:+ s2) = normalize s1 +:+ normalize s2.
Proof.
  induction s1 as [|c s1 IH]; [done|]. rewrite str_app_cons. simpl.
  destruct (Py.isspace c); [done|]. by rewrite str_app_cons, IH.
Qed.

Lemma normalize_cons (c : ascii) (s : string) :
  normalize (String c s) = normalize (String c "") +:+ normalize s.
Proof. simpl. by destruct (Py.isspace c). Qed.

Lemma normalize_lstrip (s : string) : normalize (Py.lstrip s) = normalize s.
Proof.
  induction s as [|c s IH]; [done|]. simpl.
  destruct (Py.isspace c) eqn:Hc; [done|]. simpl. by rewrite Hc.
Qed.

Lemma normalize_rstrip (s : string) : normalize (Py.rstrip s) = normalize s.
Proof.
  induction s as [|c s IH]; [done|]. simpl. rewrite <- IH.
  destruct (Py.rstrip s) as [|c' r].
  - destruct (Py.isspace c) eqn:Hc; simpl; by rewrite ?Hc.
  - done.
Qed.

Lemma normalize_strip (s : string) : normalize (Py.strip s) = normalize s.
Proof. unfold Py.strip. by rewrite normalize_rstrip, normalize_lstrip. Qed.

Lemma join_empty_cons (x : string) (l : list string) :
  Py.join "" (x :: l) = x +:+ Py.join "" l.
Proof. destruct l; [by rewrite str_app_nil_r|done]. Qed.

Lemma join_empty_app (l1 l2 : list string) :
  Py.join "" (l1 ++ l2) = Py.join "" l1 +:+ Py.join "" l2.
Proof.
  induction l1 as [|x l1 IH]; [done|].
  change ((x :: l1) ++ l2) with (x :: (l1 ++ l2)).
  by rewrite !join_empty_cons, IH, str_app_assoc.
Qed.

Lemma normalize_split_after term s st cur :
  normalize (Py.join "" (split_after_go term st cur s))
  = normalize cur +:+ normalize s.
Proof.
  revert st cur. induction s as [|c s IH]; intros st cur.
  { simpl. by rewrite str_app_nil_r. }
  cbn [split_after_go normalize]. destruct st as [a|].
  - destruct (a && Py.isspace c) eqn:Hsplit.
    + apply andb_true_iff in Hsplit as [_ ->].
      by rewrite join_empty_cons, normalize_app, IH.
    + rewrite IH, normalize_app, str_app_assoc. simpl.
      by destruct (Py.isspace c).
  - destruct (Py.isspace c) eqn:Hc.
    + by rewrite IH.
    + rewrite IH, normalize_app, str_app_assoc. simpl. by rewrite Hc.
Qed.

Lemma normalize_split_sentences (s : string) :
  normalize (Py.join "" (split_sentences s)) = normalize s.
Proof. apply normalize_split_after. Qed.

(** What a pattern of whitespace atoms matches is whitespace. *)
Lemma match_star_blanks ic a k :
  (∀ c, accepts ic a c = true → Py.isspace c = true) →
  eats_blanks k → eats_blanks (match_star ic a k).
Proof.
  intros Ha Hk s. induction s as [|c s IH]; intros rest Hm.
  - by apply Hk.
  - simpl in Hm. destruct (accepts ic a c) eqn:Hc; [|by apply Hk].
    destruct (match_star ic a k s) as [r|] eqn:Hs; [|by apply Hk].
    simplify_eq. destruct (IH _ eq_refl) as (m & -> & Hm).
    exists (String c m). split; [done|]. simpl. by rewrite (Ha _ Hc).
Qed.

Lemma eats_blanks_step ic a c s rest :
  (∀ c, accepts ic a c = true → Py.isspace c = true) →
  accepts ic a c = true →
  (∃ m, s = m +:+ rest ∧ normalize m = "") →
  ∃ m, String c s = m +:+ rest ∧ normalize m = "".
Proof.
  intros Ha Hc (m & -> & Hm). exists (String c m). split; [done|].
  simpl. by rewrite (Ha _ Hc).
Qed.

Lemma match_here_blanks ic r :
  blank_atoms ic r → eats_blanks (match_here ic r).
Proof.
  induction r as [|[a q] r IH]; intros Hr.
  { intros s rest [= ->]. by exists "". }
  assert (∀ c, accepts ic a c = true → Py.isspace c = true) as Ha.
  { intros c. apply (Hr a q). left. }
  assert (eats_blanks (match_here ic r)) as Hk.
  { apply IH. intros a' q' c Hin. apply (Hr a' q'). by right. }
  destruct q; simpl.
  - intros [|c s] rest Hm; [done|]. simpl in Hm.
    destruct (accepts ic a c) eqn:Hc; [|done].
    eapply eats_blanks_step; [exact Ha|exact Hc|by apply Hk].
  - intros [|c s] rest Hm; simpl in Hm; [by apply Hk|].
    destruct (accepts ic a c) eqn:Hc; [|by apply Hk].
    destruct (match_here ic r s) as [x|] eqn:Hs; [|by apply Hk].
    simplify_eq. eapply eats_blanks_step; [exact Ha|exact Hc|by apply Hk].
  - by apply match_star_blanks.
  - intros [|c s] rest Hm; [done|]. simpl in Hm.
    destruct (accepts ic a c) eqn:Hc; [|done].
    eapply eats_blanks_step; [exact Ha|exact Hc|].
    by apply (match_star_blanks ic a _ Ha Hk).
Qed.

Lemma blank_prefix_S n c s :
  blank_prefix (S n) (String c s) → Py.isspace c = true ∧ blank_prefix n s.
Proof.
  intros (m & rest & Hs & Hlen & Hm). destruct m as [|c' m]; [done|].
  rewrite str_app_cons in Hs. injection Hs as <- ->. simpl in Hlen, Hm.
  destruct (Py.isspace c) eqn:Hc; [|done]. split; [done|].
  exists m, rest. split; [done|]. split; [lia|done].
Qed.

Lemma match_length_blank ic r s n :
  blank_atoms ic r → match_length ic r s = Some n → blank_prefix n s.
Proof.
  intros Hr Hm. unfold match_length in Hm.
  destruct (match_here ic r s) as [rest|] eqn:Hs; simplify_eq/=.
  destruct (match_here_blanks ic r Hr _ _ Hs) as (m & -> & Hm).
  exists m, rest. split; [done|]. split; [|done].
  rewrite str_length_app. lia.
Qed.

(** Splitting on a pattern of whitespace loses whitespace only. *)
Lemma normalize_split_go ic r s skip cur :
  blank_atoms ic r → blank_prefix skip s →
  normalize (Py.join "" (split_go ic r skip cur s))
  = normalize cur +:+ normalize s.
Proof.
  intros Hr. revert skip cur. induction s as [|c s IH]; intros skip cur Hskip.
  { simpl. by rewrite str_app_nil_r. }
  cbn [split_go]. destruct skip as [|k].
  - destruct (match_length ic r (String c s)) as [[|n]|] eqn:Hm.
    + rewrite IH by (by exists "", s).
      by rewrite normalize_app, str_app_assoc, (normalize_cons c s).
    + apply match_length_blank in Hm; [|done].
      apply blank_prefix_S in Hm as [Hc Hn].
      rewrite join_empty_cons, normalize_app, (IH _ _ Hn). simpl.
      by rewrite Hc.
    + rewrite IH by (by exists "", s).
      by rewrite normalize_app, str_app_assoc, (normalize_cons c s).
  - apply blank_prefix_S in Hskip as [Hc Hk]. rewrite (IH _ _ Hk). simpl.
    by rewrite Hc.
Qed.

Lemma normalize_split_paragraphs (text : string) :
  normalize (Py.join "" (split_paragraphs text)) = normalize text.
Proof.
  unfold split_paragraphs, split. rewrite normalize_split_go; [done| |by exists "", text].
  intros a q c Hin Hacc.
  repeat (apply elem_of_cons in Hin as [Hin|Hin]); simplify_eq/=;
    try (by apply elem_of_nil in Hin); try done.
  all: apply bool_decide_eq_true in Hacc; by subst.
Qed.

(** *** The whole run *)

Section whole.
Variable count_tokens : string → nat.
Variable chunk_size : Z.

Local Abbreviation tokens := (tokens count_tokens).
Local Abbreviation para_units := (para_units count_tokens chunk_size).
Local Abbreviation page_units := (page_units count_tokens chunk_size).
Local Abbreviation all_units := (all_units count_tokens chunk_size).
Local Abbreviation oversized_sentence := (oversized_sentence count_tokens chunk_size).
Local Abbreviation inv := (inv count_tokens).
Local Abbreviation para_step := (para_step count_tokens chunk_size).
Local Abbreviation page_step := (page_step count_tokens chunk_size).
Local Abbreviation chunk_text := (chunk_text count_tokens chunk_size).

Lemma paragraphs_inv Over page_num paras done st :
  inv Over false done st →
  (∀ para s, para ∈ paras → Py.strip para ≠ "" →
     (chunk_size < tokens (Py.strip para))%Z →
     s ∈ split_sentences (Py.strip para) → Over s) →
  inv Over false (done ++ flat_map para_units paras)
      (foldl (para_step page_num) st paras).
Proof.
  revert done st. induction paras as [|para paras IH]; intros done st Hinv Hover.
  { simpl. by rewrite app_nil_r. }
  simpl. rewrite (assoc (++)). apply IH.
  - apply para_step_inv; [done|]. intros Hne Hbig.
    destruct (split_sentences_nonempty para Hne) as [Hs Hall].
    split; [done|]. apply Forall_forall. intros s Hs'. split.
    + by eapply (proj1 (Forall_forall _ _) Hall).
    + apply (Hover para s); [left|done..].
  - intros para' s Hin. apply Hover. by right.
Qed.

Lemma pages_inv (pages l : list Page.t) done st :
  inv (oversized_sentence pages) false done st →
  l ⊆ pages →
  inv (oversized_sentence pages) false (done ++ flat_map page_units l)
      (foldl page_step st l).
Proof.
  revert done st. induction l as [|page l IH]; intros done st Hinv Hsub.
  { simpl. by rewrite app_nil_r. }
  simpl. rewrite (assoc (++)). apply IH.
  - apply paragraphs_inv; [done|]. intros para s Hpara Hne Hbig Hs.
    exists page, para. split; [|done]. apply Hsub. left.
  - intros p Hp. apply Hsub. by right.
Qed.

Lemma inv_init Over : inv Over false [] init.
Proof. by apply (Inv _ _ _ _ _ [] None []). Qed.

(** The chunks of [chunk_text], read as parts: what each chunk carries
    over from the one before it, and the units it adds. *)
Lemma chunk_text_trace (pages : list Page.t) (overlap : Z) :
  ∃ ps : list Part,
    map Chunk.content (chunk_text pages overlap) = map render ps ∧
    map Chunk.chunk_id (chunk_text pages overlap)
      = Z.of_nat <$> seq 0 (length ps) ∧
    chain (oversized_sentence pages) None ps ∧
    concat (map fresh ps) = all_units pages ∧
    Forall (λ p, normalize (sep p) = "") ps ∧
    Forall (λ p, fresh p ≠ [] ∧ Forall (λ u, u ≠ "") (units p)) ps.
Proof.
  unfold Ingest.chunk_text.
  pose proof (pages_inv pages pages [] init (inv_init _) (reflexivity _)) as Hinv.
  simpl in Hinv. fold (all_units pages) in Hinv.
  set (st := foldl page_step init pages) in *.
  destruct (nonempty (current_chunk st)) eqn:Hcur.
  - apply nonempty_true in Hcur.
    pose proof (inv_flush_none count_tokens _ false _ st Py.LFLF Hinv eq_refl
                  Hcur (or_introl eq_refl))
      as [ps cc fc Hc Hids _ Hchain Hcc Hunits _ _ _ Hseps _ Hparts].
    simpl in *. exists ps. split; [done|].
    split; [|split; [done|split; [|done]]].
    + rewrite Hids. by rewrite <- (length_map Chunk.content), Hc, length_map.
    + destruct cc; [done|]. simpl in Hcc. subst fc. by rewrite app_nil_r in Hunits.
  - destruct Hinv as [ps cc fc Hc Hids _ Hchain Hcc Hunits _ _ _ Hseps _ Hparts].
    exists ps. split; [done|]. split; [|split; [done|split; [|done]]].
    + rewrite Hids. by rewrite <- (length_map Chunk.content), Hc, length_map.
    + destruct (current_chunk st); [|done].
      destruct cc; [done|]. simpl in Hcc. subst fc. by rewrite app_nil_r in Hunits.
Qed.





Lemma normalize_para_units (para : string) :
  normalize (Py.join "" (para_units para)) = normalize para.
Proof.
  unfold Trace.para_units. rewrite <- (normalize_strip para).
  destruct (Py.truthy (Py.strip para)) eqn:Htr; simpl.
  - destruct (chunk_size <? _)%Z; [|done]. apply normalize_split_sentences.
  - by destruct (Py.strip para).
Qed.

Lemma normalize_units_of_paragraphs (paras : list string) :
  normalize (Py.join "" (flat_map para_units paras))
  = normalize (Py.join "" paras).
Proof.
  induction paras as [|para paras IH]; [done|]. cbn [flat_map].
  by rewrite join_empty_app, join_empty_cons, !normalize_app, IH,
    normalize_para_units.
Qed.

Lemma normalize_all_units (pages : list Page.t) :
  normalize (Py.join "" (all_units pages))
  = normalize (Py.join "" (map Page.text pages)).
Proof.
  induction pages as [|page pages IH]; [done|].
  unfold Trace.all_units in *. cbn [flat_map map].
  rewrite join_empty_app, join_empty_cons, !normalize_app, IH. f_equal.
  unfold Trace.page_units.
  by rewrite normalize_units_of_paragraphs, normalize_split_paragraphs.
Qed.




End whole.

(** C4 on three paragraphs of two words each, with a budget of three
    words counted by [word_count]: the second and the third chunk hold two
    paragraphs, the carried one and the new one, and four words. And on one
    paragraph of four sentences with a budget of five words: what the
    sentence loop carries over is the whole chunk it flushed, so the chunks
    hold four, six and eight words. *)
Theorem budget_exceeded_by_overlap :
  let cs := chunk_text word_count 3 [Samples.page Samples.three_paragraphs] 128 in
  let cs' := chunk_text word_count 5 [Samples.page Samples.four_sentences] 128 in
  map Chunk.content cs
    = ["a b"; "a b" +:+ Py.LFLF +:+ "c d"; "c d" +:+ Py.LFLF +:+ "e f"] ∧
  map (λ c, word_count (Chunk.content c)) cs = [2; 4; 4] ∧
  map word_count ["a b"; "c d"; "e f"] = [2; 2; 2] ∧
  map Chunk.content cs'
    = ["a b. c d."; "a b. c d. e f."; "a b. c d. e f." +:+ Py.LFLF +:+ "g h."] ∧
  map (λ c, word_count (Chunk.content c)) cs' = [4; 6; 8].
Proof. repeat split; by vm_compute. Qed.


End ChunkerSpec.

(** ** More on the access policy and the endpoints *)

Module AccessMore.
Import Models Auth Deps PyFacts AuthSpec.

Lemma can_access_protected_a (c : UserClaims) (d : DocumentMetadata) :
  confidentiality_level d = PROTECTED_A →
  can_access_document c d =
  Py.contains "Staff" (roles c) || Py.contains "Hearing_Panel" (roles c)
  || match affiliation c with
     | Some a => Py.contains a (map party_name (parties d))
     | None => false
     end.
Proof.
  intros Hl. unfold can_access_document. rewrite Hl.
  destruct (_ || _); [done|]. simpl.
  destruct (affiliation c) as [a|]; [|done]. by destruct (Py.contains a _).
Qed.

Lemma contains_mono (x : string) (l l' : list string) :
  l ⊆ l' → Py.contains x l = true → Py.contains x l' = true.
Proof. rewrite !contains_true. auto. Qed.

(** X1. Access only grows. Claims with more roles and the same
    affiliation keep every document they could read; a document of the same
    level with more parties on its roster stays readable; and whoever reads
    one confidential document reads every document. *)
Theorem access_grows_with_roles (c : UserClaims) (d : DocumentMetadata) :
  (∀ c', roles c ⊆ roles c' → party_affiliation c' = party_affiliation c →
         can_access_document c d = true → can_access_document c' d = true) ∧
  (∀ d', confidentiality_level d' = confidentiality_level d →
         parties d ⊆ parties d' →
         can_access_document c d = true → can_access_document c d' = true) ∧
  (confidentiality_level d = CONFIDENTIAL →
   can_access_document c d = true → ∀ d', can_access_document c d' = true).
Proof.
  split; [|split].
  - intros c' Hsub Haff.
    assert (affiliation c' = affiliation c) as Ha
      by (unfold affiliation; by rewrite Haff).
    destruct (confidentiality_level d) eqn:Hl.
    + unfold can_access_document. by rewrite Hl.
    + rewrite !can_access_protected_a by done. rewrite Ha.
      intros H. apply orb_true_iff in H as [H|H]; [|by rewrite H, orb_true_r].
      apply orb_true_iff in H as [H|H];
        rewrite (contains_mono _ _ _ Hsub H); by rewrite ?orb_true_r.
    + unfold can_access_document. rewrite Hl. by apply contains_mono.
  - intros d' Hl' Hsub.
    destruct (confidentiality_level d) eqn:Hl.
    + unfold can_access_document. by rewrite Hl', Hl.
    + rewrite !can_access_protected_a by congruence.
      intros H. apply orb_true_iff in H as [H|H]; [by rewrite H|].
      destruct (affiliation c) as [a|]; [|done].
      rewrite orb_true_iff. right. revert H. apply contains_mono.
      intros x (p & -> & Hp)%list_elem_of_fmap. apply list_elem_of_fmap.
      exists p. split; [done|]. by apply Hsub.
    + unfold can_access_document. by rewrite Hl', Hl.
  - intros Hl. unfold can_access_document at 1. rewrite Hl. intros Hp d'.
    unfold can_access_document. rewrite Hp, orb_true_r.
    by destruct (confidentiality_level d').
Qed.

(** X2. The guard written out in [ingest_document] decides as
    [require_roles] does for the roles Staff and Hearing_Panel, with the
    same status and code on refusal; and it lets in exactly the users to
    whom every protected_a document is open: a user it refuses cannot read
    a protected_a document that names no party. *)
Theorem ingest_needs_full_protected_access (uuid4 : string) (c : UserClaims) :
  (ingest_document uuid4 c
     = Return {| document_id := uuid4; status := PENDING;
                 estimated_completion_minutes := 5 |} ∧
   require_roles ["Staff"; "Hearing_Panel"] c = Return c ∧
   ∀ d, confidentiality_level d = PROTECTED_A → can_access_document c d = true)
  ∨
  (ingest_document uuid4 c = HTTPException 403 "AUTH_002" ∧
   require_roles ["Staff"; "Hearing_Panel"] c = HTTPException 403 "AUTH_002" ∧
   ∀ d, confidentiality_level d = PROTECTED_A → parties d = [] →
        can_access_document c d = false).
Proof.
  unfold ingest_document, require_roles. simpl. rewrite orb_false_r.
  destruct (Py.contains "Staff" (roles c)) eqn:Hs;
    destruct (Py.contains "Hearing_Panel" (roles c)) eqn:Hp; simpl.
  1-3: left; split; [done|]; split; [done|]; intros d Hl;
       rewrite (can_access_protected_a _ _ Hl), Hs, Hp; done.
  right. split; [done|]. split; [done|]. intros d Hl Hnil.
  rewrite (can_access_protected_a _ _ Hl), Hs, Hp, Hnil. simpl.
  destruct (affiliation c); [|done]. by apply contains_false, not_elem_of_nil.
Qed.

End AccessMore.

(** ** The current user *)

Module CurrentUser.
Import Models Auth Deps PyFacts AuthSpec.

Lemma valid_demo_role_Some (role : option string) (r : string) :
  valid_demo_role role = Some r ↔
  role = Some r ∧ r ≠ "" ∧ is_Some (DEMO_USERS !! r).
Proof.
  unfold valid_demo_role. destruct role as [r'|]; [|naive_solver].
  destruct (Py.truthy r') eqn:Ht; simpl.
  - apply truthy_true in Ht. case_bool_decide; naive_solver.
  - assert (r' = "") as -> by (by destruct r'). naive_solver.
Qed.

Lemma subscript_Some (r : string) (u : UserClaims) :
  DEMO_USERS !! r = Some u → subscript DEMO_USERS r = Return u.
Proof. unfold subscript. by intros ->. Qed.

(** X3. A demo role in the [X-Demo-Role] header wins over everything
    else: whatever the environment, the claims a middleware attached and
    the bearer credentials, a header naming a key of [DEMO_USERS] makes
    [get_current_user] return that demo user. With the header
    [Hearing_Panel] no search filter is built and
    [require_document_access] lets every document through. *)
Theorem demo_header_overrides_everything
    (environ : gmap string string) (request : Request)
    (creds : option HTTPAuthorizationCredentials) :
  (∀ r u, r ≠ "" → DEMO_USERS !! r = Some u →
          get_current_user environ request creds (Some r) = Return u) ∧
  ∃ u, get_current_user environ request creds (Some "Hearing_Panel") = Return u ∧
       build_search_filter u = None ∧
       ∀ d, depends (get_current_user environ request creds (Some "Hearing_Panel"))
                    (require_document_access d) = Return u.
Proof.
  assert (∀ r u, r ≠ "" → DEMO_USERS !! r = Some u →
            get_current_user environ request creds (Some r) = Return u) as H.
  { intros r u Hr Hu. unfold get_current_user.
    assert (valid_demo_role (Some r) = Some r) as ->.
    { apply valid_demo_role_Some. by rewrite Hu. }
    by apply subscript_Some. }
  split; [exact H|].
  destruct (DEMO_USERS !! "Hearing_Panel") as [u|] eqn:Hu; [|by vm_compute in Hu].
  exists u. rewrite (H "Hearing_Panel" u ltac:(done) Hu).
  assert (u = {| oid := "demo-panel-001"; name := "Commissioner Demo";
                 email := "panel@aer.ca"; roles := ["Hearing_Panel"];
                 party_affiliation := None; ba_code := None |}) as ->.
  { vm_compute in Hu. by injection Hu as <-. }
  split; [done|]. split; [done|]. intros d. simpl.
  unfold require_document_access, can_access_document.
  by destruct (confidentiality_level d).
Qed.

(** X4. Every way [get_current_user] can end. A user it returns is a
    demo user named by the header or by [DEMO_ROLE], or the claims attached
    to the request; a [KeyError] is for the key [AER_Staff]; and the only
    HTTP error is 401 [AUTH_001], raised when there are no credentials, no
    attached claims, and [ENVIRONMENT] is set to something other than
    [development]. *)
Theorem get_current_user_outcomes
    (environ : gmap string string) (request : Request)
    (creds : option HTTPAuthorizationCredentials) (x_demo_role : option string) :
  match get_current_user environ request creds x_demo_role with
  | Return u =>
      (∃ r, r ≠ "" ∧ DEMO_USERS !! r = Some u ∧
            (x_demo_role = Some r ∨ environ !! "DEMO_ROLE" = Some r)) ∨
      state_user_claims request = Some u
  | KeyError key => key = "AER_Staff"
  | HTTPException status_code code =>
      status_code = 401%Z ∧ code = "AUTH_001" ∧ creds = None ∧
      state_user_claims request = None ∧
      ∃ e, environ !! "ENVIRONMENT" = Some e ∧ e ≠ "development"
  end.
Proof.
  unfold get_current_user.
  destruct (valid_demo_role x_demo_role) as [r|] eqn:Hh.
  { apply valid_demo_role_Some in Hh as (-> & Hr & [u Hu]).
    rewrite (subscript_Some _ _ Hu). left. exists r. eauto. }
  destruct (valid_demo_role (environ !! "DEMO_ROLE")) as [r|] eqn:He.
  { apply valid_demo_role_Some in He as (He & Hr & [u Hu]).
    rewrite (subscript_Some _ _ Hu). left. exists r. eauto. }
  destruct (state_user_claims request) as [u|] eqn:Hs; [by right|].
  case_bool_decide as Hdev; [done|].
  destruct creds; [done|]. simpl. split; [done|]. split; [done|].
  split; [done|]. split; [done|].
  destruct (environ !! "ENVIRONMENT") as [e|]; [|done]. by exists e.
Qed.

End CurrentUser.

(** ** The filter sent to the backend *)

Module SearchFilterSpec.
Import Models Auth OData SearchFilter Filtering PyFacts AuthSpec FilterSpec.

Lemma parse_S (fuel : nat) (lv : level) (ts : list token) :
  parse (S fuel) lv ts =
  match lv with
  | LOr =>
      '(e1, ts1) ← parse fuel LAnd ts;
      match ts1 with
      | t :: ts2 =>
          if is_keyword "or" t
          then '(e2, ts3) ← parse fuel LOr ts2; Some (Or e1 e2, ts3)
          else Some (e1, ts1)
      | [] => Some (e1, ts1)
      end
  | LAnd =>
      '(e1, ts1) ← parse fuel LPrim ts;
      match ts1 with
      | t :: ts2 =>
          if is_keyword "and" t
          then '(e2, ts3) ← parse fuel LAnd ts2; Some (And e1 e2, ts3)
          else Some (e1, ts1)
      | [] => Some (e1, ts1)
      end
  | LPrim =>
      match ts with
      | TLParen :: ts1 =>
          '(e, ts2) ← parse fuel LOr ts1;
          match ts2 with
          | TRParen :: ts3 => Some (e, ts3)
          | _ => None
          end
      | TName coll :: TSlash :: TName f :: TLParen :: TName var :: TColon :: ts1 =>
          if String.eqb f "any" then
            '(e, ts2) ← parse fuel LOr ts1;
            match ts2 with
            | TRParen :: ts3 => Some (Any coll var e, ts3)
            | _ => None
            end
          else None
      | a :: op :: b :: ts1 =>
          a' ← parse_operand a;
          op' ← parse_cmp op;
          b' ← parse_operand b;
          Some (Cmp op' a' b', ts1)
      | _ => None
      end
  end.
Proof. reflexivity. Qed.

(** More fuel changes no result. *)
Lemma parse_fuel_mono (fuel : nat) :
  ∀ lv ts r, parse fuel lv ts = Some r → parse (S fuel) lv ts = Some r.
Proof.
  induction fuel as [|fuel IH]; intros lv ts r H; [done|].
  rewrite parse_S in H. rewrite parse_S.
  destruct lv.
  - destruct (parse fuel LAnd ts) as [[e1 ts1]|] eqn:H1; [|done].
    rewrite (IH _ _ _ H1). simpl in *.
    destruct ts1 as [|t ts2]; [done|].
    destruct (is_keyword "or" t); [|done].
    destruct (parse fuel LOr ts2) as [[e2 ts3]|] eqn:H2; [|done].
    by rewrite (IH _ _ _ H2).
  - destruct (parse fuel LPrim ts) as [[e1 ts1]|] eqn:H1; [|done].
    rewrite (IH _ _ _ H1). simpl in *.
    destruct ts1 as [|t ts2]; [done|].
    destruct (is_keyword "and" t); [|done].
    destruct (parse fuel LAnd ts2) as [[e2 ts3]|] eqn:H2; [|done].
    by rewrite (IH _ _ _ H2).
  - repeat match goal with
           | H : context [match ?x with _ => _ end] |- _ =>
               is_var x; destruct x; try done
           | H : context [String.eqb ?a ?b] |- _ =>
               destruct (String.eqb a b); try done
           end;
      repeat match goal with
             | H : context [parse fuel ?l ?t] |- _ =>
                 let E := fresh "E" in
                 destruct (parse fuel l t) as [[??]|] eqn:E; [|done];
                 rewrite (IH _ _ _ E)
             end; done.
Qed.

Lemma parse_fuel_le (fuel fuel' : nat) lv ts r :
  fuel ≤ fuel' → parse fuel lv ts = Some r → parse fuel' lv ts = Some r.
Proof.
  induction 1 as [|k _ IH]; [done|]. intros H. by apply parse_fuel_mono, IH.
Qed.


(** The clauses after the security filter's do not depend on it. *)
Lemma final_filter_clauses (request : SearchRequest) (f : string) :
  f ≠ "" →
  final_filter request (Some f)
  = Some (match final_filter request None with
          | Some g => f +:+ " and " +:+ g
          | None => f
          end).
Proof.
  intros Hf%truthy_true. unfold final_filter. rewrite Hf.
  destruct (filters request) as [[[[|??]|] [[|??]|] [[|??]|] ??]|];
    destruct (proceeding_id request) as [[|??]|]; reflexivity.
Qed.

Lemma build_search_filter_ne (c : UserClaims) (f : string) :
  build_search_filter c = Some f → f ≠ "".
Proof.
  unfold build_search_filter.
  destruct (Py.contains "Hearing_Panel" (roles c)),
    (Py.contains "Staff" (roles c)); simpl; try congruence.
  destruct (affiliation c); intros [= <-]; done.
Qed.

Lemma backend_security_decision (c : UserClaims) (d : DocumentMetadata) :
  backend_decision (build_search_filter c) d
  = security_decision (build_search_filter c) d.
Proof.
  unfold backend_decision, security_decision.
  destruct (build_search_filter c) as [f|] eqn:Hf; [|done].
  apply build_search_filter_ne, truthy_true in Hf. by rewrite Hf.
Qed.

Lemma lex_party_clause (p : string) :
  quote_free p = true →
  lex_run Idle (party_clause p) = Some (party_tokens p, Idle).
Proof.
  intros Hq. unfold party_clause.
  rewrite lex_run_app.
  match goal with
  | |- context [lex_run Idle ?s] =>
      let r := eval vm_compute in (lex_run Idle s) in
      change (lex_run Idle s) with r
  end.
  cbn [mbind option_bind].
  rewrite lex_run_app, (lex_run_literal _ _ Hq). reflexivity.
Qed.

Lemma lex_party_chain (p : string) (ps : list string) :
  Forall (λ p, quote_free p = true) (p :: ps) →
  lex_run Idle (Py.join " or " (map party_clause (p :: ps)))
  = Some (chain_tokens p ps, Idle).
Proof.
  revert p. induction ps as [|q ps IH]; intros p Hq.
  - apply lex_party_clause. by inversion Hq.
  - inversion Hq as [|?? Hp Hps]; subst.
    change (Py.join " or " (map party_clause (p :: q :: ps)))
      with (party_clause p +:+ " or "
            +:+ Py.join " or " (map party_clause (q :: ps))).
    rewrite lex_run_app, (lex_party_clause _ Hp). cbn [mbind option_bind].
    rewrite lex_run_app.
    change (lex_run Idle " or ") with (Some ([TName "or"], Idle)).
    cbn [mbind option_bind]. rewrite (IH _ Hps). reflexivity.
Qed.

Lemma chain_tokens_length (p : string) (ps : list string) :
  10 + length ps ≤ length (chain_tokens p ps).
Proof.
  revert p. induction ps as [|q ps IH]; intros p; simpl; [lia|].
  specialize (IH q). lia.
Qed.

(** A chain of party clauses before a closing parenthesis is read as the
    alternatives it lists. *)
Lemma parse_party_chain (ps : list string) :
  ∀ p fuel rest,
    length ps + 6 ≤ fuel →
    parse fuel LOr (chain_tokens p ps ++ TRParen :: rest)
    = Some (or_expr p ps, TRParen :: rest).
Proof.
  induction ps as [|q ps IH]; intros p fuel rest Hfuel.
  - do 6 (destruct fuel as [|fuel]; [simpl in Hfuel; lia|]). reflexivity.
  - do 6 (destruct fuel as [|fuel]; [simpl in Hfuel; lia|]).
    simpl in Hfuel.
    assert (parse (S (S (S (S (S fuel))))) LOr
              (chain_tokens q ps ++ TRParen :: rest)
            = Some (or_expr q ps, TRParen :: rest)) as Hrec
      by (apply IH; lia).
    rewrite parse_S.
    assert (parse (S (S (S (S (S fuel))))) LAnd
              (chain_tokens p (q :: ps) ++ TRParen :: rest)
            = Some (party_expr p,
                    TName "or" :: chain_tokens q ps ++ TRParen :: rest)) as ->
      by reflexivity.
    cbn [mbind option_bind is_keyword String.eqb Ascii.eqb Bool.eqb].
    rewrite Hrec. reflexivity.
Qed.

Lemma eval_or_expr env doc (p : string) (ps : list string) :
  eval env doc (or_expr p ps)
  = Some (existsb (λ p, Py.contains p (OData.parties doc)) (p :: ps)).
Proof.
  revert p. induction ps as [|q ps IH]; intros p.
  - change (or_expr p []) with (party_expr p). unfold party_expr.
    rewrite eval_any_eq. simpl. by rewrite orb_false_r.
  - change (or_expr p (q :: ps)) with (Or (party_expr p) (or_expr q ps)).
    rewrite eval_Or, IH. unfold party_expr. rewrite eval_any_eq. reflexivity.
Qed.

(** The text after a prefix that leaves the lexer idle: a chain of party
    clauses and a closing parenthesis. *)
Lemma lex_with_chain (pre : string) (toks : list token) (p : string)
    (ps : list string) :
  lex_run Idle pre = Some (toks, Idle) →
  Forall (λ p, quote_free p = true) (p :: ps) →
  lex (pre +:+ Py.join " or " (map party_clause (p :: ps)) +:+ ")")
  = Some (toks ++ chain_tokens p ps ++ [TRParen]).
Proof.
  intros Hpre Hq. unfold lex.
  rewrite lex_run_app, Hpre. cbn [mbind option_bind].
  rewrite lex_run_app, (lex_party_chain _ _ Hq). cbn [mbind option_bind].
  change (lex_run Idle ")") with (Some ([TRParen], Idle)).
  cbn [mbind option_bind lex_end]. by rewrite app_nil_r.
Qed.

Lemma parse_filter_tokens (s : string) (ts : list token) (e : expr) :
  lex s = Some ts →
  parse (3 * length ts + 3) LOr ts = Some (e, []) →
  parse_filter s = Some e.
Proof.
  intros Hl Hp. unfold parse_filter. rewrite Hl. cbn [mbind option_bind].
  by rewrite Hp.
Qed.

(** Reading the tokens of a filter that ends in a chain of party clauses:
    [k] levels of the grammar stand above the chain. *)
Ltac parse_above_chain k :=
  match goal with
  | |- parse _ LOr (_ ++ chain_tokens ?p ?ps ++ [TRParen]) = _ =>
      apply (parse_fuel_le (k + (length ps + 6)));
      [ pose proof (chain_tokens_length p ps);
        rewrite !length_app; cbn [length]; lia
      | generalize (Nat.le_refl (length ps + 6));
        generalize (length ps + 6) at 2 3; intros m Hm;
        cbn [Nat.add app];
        repeat first [ rewrite parse_party_chain by lia
                     | rewrite parse_S; cbn -[parse] ];
        reflexivity ]
  end.

Lemma lex_party_prefix (a : string) :
  quote_free a = true →
  lex_run Idle ("confidentialityLevel ne 'confidential' and "
                +:+ "(confidentialityLevel eq 'public' or "
                +:+ "parties/any(p: p eq '" +:+ a +:+ "')) and (")
  = Some ([TName "confidentialityLevel"; TName "ne"; TLit "confidential";
           TName "and"; TLParen;
           TName "confidentialityLevel"; TName "eq"; TLit "public";
           TName "or"] ++ party_tokens a
          ++ [TRParen; TName "and"; TLParen], Idle).
Proof.
  intros Ha.
  rewrite <- !str_app_assoc, str_app_assoc.
  rewrite lex_run_app.
  match goal with
  | |- context [lex_run Idle ?s] =>
      let r := eval vm_compute in (lex_run Idle s) in
      change (lex_run Idle s) with r
  end.
  cbn [mbind option_bind].
  rewrite lex_run_app, (lex_run_literal _ _ Ha). reflexivity.
Qed.

Section chains.
Variables (p : string) (ps : list string).
Hypothesis Hq : Forall (λ p, quote_free p = true) (p :: ps).

Local Abbreviation chain_text := (Py.join " or " (map party_clause (p :: ps))).

Lemma parse_filter_chain :
  parse_filter ("(" +:+ chain_text +:+ ")") = Some (or_expr p ps).
Proof.
  eapply parse_filter_tokens.
  - exact (lex_with_chain "(" [TLParen] p ps eq_refl Hq).
  - parse_above_chain 3.
Qed.

Lemma parse_filter_staff_chain :
  parse_filter ("confidentialityLevel ne 'confidential'" +:+ " and "
                +:+ "(" +:+ chain_text +:+ ")")
  = Some (And (Cmp Ne (OName "confidentialityLevel") (OLit "confidential"))
              (or_expr p ps)).
Proof.
  eapply parse_filter_tokens.
  - exact (lex_with_chain "confidentialityLevel ne 'confidential' and ("
             [TName "confidentialityLevel"; TName "ne"; TLit "confidential";
              TName "and"; TLParen] p ps eq_refl Hq).
  - parse_above_chain 4.
Qed.

Lemma parse_filter_public_chain :
  parse_filter (Py.join " and " ["confidentialityLevel ne 'confidential'";
                                 "confidentialityLevel eq 'public'"]
                +:+ " and " +:+ "(" +:+ chain_text +:+ ")")
  = Some (And (Cmp Ne (OName "confidentialityLevel") (OLit "confidential"))
           (And (Cmp Eq (OName "confidentialityLevel") (OLit "public"))
                (or_expr p ps))).
Proof.
  eapply parse_filter_tokens.
  - exact (lex_with_chain
             ("confidentialityLevel ne 'confidential' and "
              +:+ "confidentialityLevel eq 'public' and (")
             [TName "confidentialityLevel"; TName "ne"; TLit "confidential";
              TName "and";
              TName "confidentialityLevel"; TName "eq"; TLit "public";
              TName "and"; TLParen] p ps eq_refl Hq).
  - parse_above_chain 5.
Qed.

Lemma party_text_assoc (a : string) :
  Py.join " and "
    ["confidentialityLevel ne 'confidential'";
     "(confidentialityLevel eq 'public' or "
     +:+ "parties/any(p: p eq '" +:+ a +:+ "'))"]
  +:+ " and " +:+ "(" +:+ chain_text +:+ ")"
  = ("confidentialityLevel ne 'confidential' and "
     +:+ "(confidentialityLevel eq 'public' or "
     +:+ "parties/any(p: p eq '" +:+ a +:+ "')) and (")
    +:+ chain_text +:+ ")".
Proof. cbn [Py.join]. rewrite !str_app_assoc. reflexivity. Qed.

Lemma parse_filter_party_chain (a : string) :
  quote_free a = true →
  parse_filter (Py.join " and "
                  ["confidentialityLevel ne 'confidential'";
                   "(confidentialityLevel eq 'public' or "
                   +:+ "parties/any(p: p eq '" +:+ a +:+ "'))"]
                +:+ " and " +:+ "(" +:+ chain_text +:+ ")")
  = Some (And (Cmp Ne (OName "confidentialityLevel") (OLit "confidential"))
           (And (Or (Cmp Eq (OName "confidentialityLevel") (OLit "public"))
                    (party_expr a))
                (or_expr p ps))).
Proof.
  intros Ha. rewrite party_text_assoc.
  eapply parse_filter_tokens.
  - exact (lex_with_chain _ _ p ps (lex_party_prefix a Ha) Hq).
  - parse_above_chain 13.
Qed.

End chains.

Lemma final_filter_of_claims (request : SearchRequest) (c : UserClaims) :
  final_filter request None = None →
  endpoint_filter request c = build_search_filter c.
Proof.
  intros Hnone. unfold endpoint_filter.
  destruct (build_search_filter c) as [f|] eqn:Hf; [|done].
  rewrite final_filter_clauses by by eapply build_search_filter_ne.
  by rewrite Hnone.
Qed.

(** X5. The filter [search_documents] sends. A security filter that is
    present stands first, joined by [and] to the clauses of the request,
    which are those the request gives without it; an empty security filter
    counts as none. With no security filter, nothing is sent exactly when
    the request names no document type, party or citation (each list absent
    or empty) and no proceeding (absent or empty). The dates of the request
    are never read. *)
Theorem final_filter_structure (request : SearchRequest) :
  (∀ f, f ≠ "" →
     final_filter request (Some f)
     = Some (match final_filter request None with
             | Some g => f +:+ " and " +:+ g
             | None => f
             end)) ∧
  final_filter request (Some "") = final_filter request None ∧
  (final_filter request None = None ↔
     (∀ fs, filters request = Some fs →
        (document_types fs = None ∨ document_types fs = Some []) ∧
        (SearchFilter.parties fs = None ∨ SearchFilter.parties fs = Some []) ∧
        (SearchFilter.regulatory_citations fs = None
         ∨ SearchFilter.regulatory_citations fs = Some [])) ∧
     (proceeding_id request = None ∨ proceeding_id request = Some "")) ∧
  (∀ df dt sf, final_filter (with_dates request df dt) sf
               = final_filter request sf).
Proof.
  split; [apply final_filter_clauses|]. split; [done|]. split.
  - unfold final_filter.
    destruct (filters request) as [[[[|??]|] [[|??]|] [[|??]|] ??]|];
      destruct (proceeding_id request) as [[|??]|]; simpl; split;
      first
        [ done
        | intros _; split; [intros ? [= <-]; simpl|]; naive_solver
        | intros [H1 H2]; exfalso;
          first [ by destruct H2
                | destruct (H1 _ eq_refl) as (?&?&?); simpl in *;
                  naive_solver ] ].
  - intros df dt sf. unfold final_filter, with_dates. simpl.
    by destruct (filters request).
Qed.

(** X6. A search whose request adds no clause is decided by the security
    filter alone, and that filter admits a document exactly when
    [can_access_document] grants it, for claims whose affiliation holds no
    quote. *)
Theorem plain_search_decides_as_access (request : SearchRequest)
    (c : UserClaims) (d : DocumentMetadata) :
  (∀ a, affiliation c = Some a → quote_free a = true) →
  final_filter request None = None →
  backend_decision (endpoint_filter request c) d
  = Some (can_access_document c d).
Proof.
  intros Hq Hnone. rewrite (final_filter_of_claims _ _ Hnone).
  rewrite backend_security_decision.
  by apply filter_matches_access_quote_free.
Qed.

Lemma parse_filter_closing (a : string) :
  quote_free a = true →
  parse_filter (Py.join " and "
                  ["confidentialityLevel ne 'confidential'";
                   "(confidentialityLevel eq 'public' or "
                   +:+ "parties/any(p: p eq '" +:+ a +:+ "'))"]
                +:+ " and " +:+ "(" +:+ party_clause closing_party +:+ ")")
  = Some (Or (And (Cmp Ne (OName "confidentialityLevel") (OLit "confidential"))
                (And (Or (Cmp Eq (OName "confidentialityLevel") (OLit "public"))
                         (party_expr a))
                     (party_expr "x")))
             (Or (Cmp Ne (OName "confidentialityLevel") (OLit "x"))
                 (party_expr "x"))).
Proof.
  intros Ha. unfold parse_filter, lex.
  replace (Py.join " and "
             ["confidentialityLevel ne 'confidential'";
              "(confidentialityLevel eq 'public' or "
              +:+ "parties/any(p: p eq '" +:+ a +:+ "'))"]
           +:+ " and " +:+ "(" +:+ party_clause closing_party +:+ ")")
    with (("confidentialityLevel ne 'confidential' and "
           +:+ "(confidentialityLevel eq 'public' or "
           +:+ "parties/any(p: p eq '")
          +:+ a
          +:+ "')) and (parties/any(p: p eq 'x')) or "
          +:+ "(confidentialityLevel ne 'x' or parties/any(p: p eq 'x'))")
    by (cbn [Py.join]; rewrite !str_app_assoc; reflexivity).
  rewrite lex_run_app.
  match goal with
  | |- context [lex_run Idle ?s] =>
      let r := eval vm_compute in (lex_run Idle s) in
      change (lex_run Idle s) with r
  end.
  cbn [mbind option_bind].
  rewrite lex_run_app, (lex_run_literal _ _ Ha). reflexivity.
Qed.

Lemma level_value_ne_x (l : ConfidentialityLevel) :
  String.eqb (level_value l) "x" = false.
Proof. by destruct l. Qed.

(** X7. The parties of a request are pasted into the filter as they are.
    One party name, [closing_party], closes the clause it is pasted into and
    adds an alternative that holds of every document: with it the filter
    sent admits every document, whatever the claims (here with an
    affiliation that holds no quote) and whatever the document's level. *)
Theorem requested_party_can_void_security_filter (c : UserClaims)
    (d : DocumentMetadata) (q : string) :
  (∀ a, affiliation c = Some a → quote_free a = true) →
  backend_decision (endpoint_filter (party_request q [closing_party]) c) d
  = Some true.
Proof.
  intros Hq. unfold endpoint_filter.
  assert (∀ f, f ≠ "" →
            final_filter (party_request q [closing_party]) (Some f)
            = Some (f +:+ " and " +:+ "(" +:+ party_clause closing_party
                    +:+ ")")) as Hfinal
    by (intros f Hf; by rewrite final_filter_clauses).
  unfold build_search_filter.
  destruct (Py.contains "Hearing_Panel" (roles c)) eqn:Hp;
    destruct (Py.contains "Staff" (roles c)) eqn:Hs; simpl negb;
    cbn [andb app].
  1,2: change (final_filter (party_request q [closing_party]) None)
    with (Some ("(" +:+ party_clause closing_party +:+ ")")).
  all: try rewrite Hfinal by done.
  all: try (destruct (affiliation c) as [a|] eqn:Ha; rewrite Hfinal by done).
  all: unfold backend_decision, eval_filter.
  4: rewrite (parse_filter_closing a (Hq a eq_refl)).
  all: try match goal with
    | |- context [parse_filter ?s] =>
        let r := eval vm_compute in (parse_filter s) in
        change (parse_filter s) with r
    end.
  all: cbn [mbind option_bind]; unfold party_expr.
  all: rewrite ?eval_Or, ?eval_And, ?eval_Or, ?eval_any_eq.
  all: unfold index_doc; simpl; rewrite level_value_ne_x; simpl.
  all: by rewrite ?orb_true_r.
Qed.

(** X8. Party names that hold no quote can only narrow a search: the
    filter sent for a request that names parties admits a document exactly
    when [can_access_document] grants it and, if any party is named, one of
    the named parties is on the document's roster. *)
Theorem requested_parties_only_narrow (c : UserClaims) (d : DocumentMetadata)
    (q : string) (ps : list string) :
  (∀ a, affiliation c = Some a → quote_free a = true) →
  Forall (λ p, quote_free p = true) ps →
  backend_decision (endpoint_filter (party_request q ps) c) d
  = Some (can_access_document c d
          && match ps with
             | [] => true
             | _ => existsb (λ p, Py.contains p
                                    (map party_name (Models.parties d))) ps
             end).
Proof.
  intros Hq Hps. destruct ps as [|p ps].
  { rewrite final_filter_of_claims by done.
    rewrite backend_security_decision, andb_true_r.
    by apply filter_matches_access_quote_free. }
  unfold endpoint_filter.
  assert (∀ f, f ≠ "" →
            final_filter (party_request q (p :: ps)) (Some f)
            = Some (f +:+ " and " +:+ "("
                    +:+ Py.join " or " (map party_clause (p :: ps))
                    +:+ ")")) as Hfinal
    by (intros f Hf; by rewrite final_filter_clauses).
  unfold build_search_filter, can_access_document.
  destruct (Py.contains "Hearing_Panel" (roles c)) eqn:Hp;
    destruct (Py.contains "Staff" (roles c)) eqn:Hs; simpl negb;
    cbn [andb orb app].
  1,2: change (final_filter (party_request q (p :: ps)) None)
    with (Some ("(" +:+ Py.join " or " (map party_clause (p :: ps))
                +:+ ")")).
  all: try rewrite Hfinal by done.
  all: try (destruct (affiliation c) as [a|] eqn:Ha; rewrite Hfinal by done).
  all: unfold backend_decision, eval_filter.
  1,2: rewrite parse_filter_chain by done.
  3: rewrite parse_filter_staff_chain by done.
  4: rewrite (parse_filter_party_chain _ _ Hps a (Hq a eq_refl)).
  5: rewrite parse_filter_public_chain by done.
  all: cbn [mbind option_bind]; unfold party_expr.
  all: rewrite ?eval_And, ?eval_Or, ?eval_or_expr, ?eval_any_eq.
  all: unfold index_doc; cbn [OData.parties confidentialityLevel].
  all: destruct (confidentiality_level d); try reflexivity.
  all: simpl; by destruct (Py.contains a _).
Qed.

Lemma quote_free_affiliation (rs : list string) (a : string) :
  quote_free a = true →
  ∀ a', affiliation (Samples.claims rs (Some a)) = Some a' →
        quote_free a' = true.
Proof.
  intros Ha a'. unfold affiliation. simpl.
  destruct (Py.truthy a); [|done]. by intros [= <-].
Qed.

(** An intervener's dated search reaches a protected_a document of its
    own party. *)
Lemma plain_search_decides_as_access_witness :
  backend_decision
    (endpoint_filter dated_request
       (Samples.claims ["Intervener"] (Some "Benga Mining")))
    (Samples.document PROTECTED_A ["Benga Mining"])
  = Some true.
Proof.
  exact (plain_search_decides_as_access dated_request
           (Samples.claims ["Intervener"] (Some "Benga Mining"))
           (Samples.document PROTECTED_A ["Benga Mining"])
           (quote_free_affiliation _ "Benga Mining" eq_refl) eq_refl).
Defined.

(** A user with no role and no affiliation reaches a confidential
    document, which the security filter alone and [can_access_document]
    both refuse. *)
Lemma requested_party_can_void_security_filter_witness :
  let c := Samples.claims [] None in
  let d := Samples.document CONFIDENTIAL ["Benga Mining"] in
  backend_decision
    (endpoint_filter (party_request "tailings" [closing_party]) c) d
  = Some true
  ∧ security_decision (build_search_filter c) d = Some false
  ∧ can_access_document c d = false.
Proof.
  split; [|split; reflexivity].
  apply (requested_party_can_void_security_filter
           (Samples.claims [] None)
           (Samples.document CONFIDENTIAL ["Benga Mining"]) "tailings").
  intros a Ha. discriminate Ha.
Defined.

(** An intervener asking for the documents of another party gets the
    protected_a document both are parties to, and not the one the other
    party holds alone. *)
Lemma requested_parties_only_narrow_witness :
  let c := Samples.claims ["Intervener"] (Some "Benga Mining") in
  backend_decision
    (endpoint_filter (party_request "tailings" ["Livingstone Landowners"]) c)
    (Samples.document PROTECTED_A ["Benga Mining"; "Livingstone Landowners"])
  = Some true.
Proof.
  exact (requested_parties_only_narrow
           (Samples.claims ["Intervener"] (Some "Benga Mining"))
           (Samples.document PROTECTED_A
              ["Benga Mining"; "Livingstone Landowners"])
           "tailings" ["Livingstone Landowners"]
           (quote_free_affiliation _ "Benga Mining" eq_refl)
           (Forall_cons_2 (λ p, quote_free p = true)
              "Livingstone Landowners" [] eq_refl (Forall_nil_2 _))).
Defined.
End SearchFilterSpec.

(** ** The length of a snippet *)

Module SnippetBound.
Import Search PyFacts SnippetSpec.

Lemma length_substring_0 (k : nat) (s : string) :
  String.length (String.substring 0 k s) = k `min` String.length s.
Proof.
  revert k. induction s as [|c s IH]; intros [|k]; simpl; try done.
  by rewrite IH.
Qed.

Lemma substring_0_twice (k n : nat) (s : string) :
  String.substring 0 k (String.substring 0 n s)
  = String.substring 0 (k `min` n) s.
Proof.
  revert k n. induction s as [|c s IH]; intros [|k] [|n]; simpl; try done.
  by rewrite IH.
Qed.

(** X9. For a [max_length] that is not negative, a snippet is never
    longer than [max_length + 3] characters, and it is a beginning of the
    stripped content, of at most [max_length] characters, as it stands or
    followed by the marker ["..."]. *)
Theorem highlight_snippet_bounded (content : string) (max_length : Z) :
  (0 ≤ max_length)%Z →
  let s := Py.strip content in
  let r := highlight_snippet content max_length in
  String.length r ≤ Z.to_nat max_length + 3 ∧
  ∃ k, k ≤ Z.to_nat max_length ∧
       (r = String.substring 0 k s ∨ r = String.substring 0 k s +:+ "...").
Proof.
  intros Hm s r.
  assert (∃ k, k ≤ Z.to_nat max_length ∧
               (r = String.substring 0 k s
                ∨ r = String.substring 0 k s +:+ "...")) as Hshape.
  { subst r. unfold highlight_snippet. fold s.
    destruct (Z.leb_spec (Z.of_nat (String.length s)) max_length) as [Hle|Hgt].
    { exists (String.length s). split; [lia|]. left.
      by rewrite substring_0_all. }
    rewrite (slice_to_nonneg s max_length Hm).
    set (t := String.substring 0 (Z.to_nat max_length) s).
    destruct (Z.ltb_spec (max_length `div` 2) (Py.rfind t ". ")) as [Hp|Hp].
    { assert (0 ≤ max_length `div` 2)%Z by (apply Z.div_pos; lia).
      rewrite slice_to_nonneg by lia. subst t. rewrite substring_0_twice.
      eexists. split; [|by left]. lia. }
    destruct (Z.ltb_spec 0 (Py.rfind t " ")) as [Hq|Hq].
    { rewrite slice_to_nonneg by lia. subst t. rewrite substring_0_twice.
      eexists. split; [|by right]. lia. }
    exists (Z.to_nat max_length). split; [done|]. by right. }
  split; [|done].
  destruct Hshape as (k & Hk & [->| ->]);
    rewrite ?str_length_app, length_substring_0; simpl; lia.
Qed.

(** A content of 23 characters against a limit of 10: no period and no
    space stands in the first ten, and the snippet is those ten and the
    marker, 13 characters. *)
Lemma highlight_snippet_bounded_witness :
  String.length (highlight_snippet "groundwater-monitoring " 10) ≤ 13 ∧
  highlight_snippet "groundwater-monitoring " 10 = "groundwate...".
Proof.
  split; [|reflexivity].
  exact (proj1 (highlight_snippet_bounded "groundwater-monitoring " 10
                  ltac:(lia))).
Defined.

End SnippetBound.

(** ** What the patterns return *)

Module MatchSpec.
Import Re Ingest Search Pipeline PyFacts SnippetSpec.

Lemma substring_0_app (a b : string) :
  String.substring 0 (String.length a) (a +:+ b) = a.
Proof.
  induction a as [|c a IH]; simpl.
  - by destruct b.
  - rewrite ?str_app_cons. simpl. by rewrite IH.
Qed.

Lemma str_app_inv_r (a b c : string) : a +:+ b = a +:+ c → b = c.
Proof.
  induction a as [|x a IH]; [done|]. rewrite !str_app_cons. intros [= H]. auto.
Qed.

Lemma match_star_consumes ic a k : consumes k → consumes (match_star ic a k).
Proof.
  intros Hk s. induction s as [|c s IH]; intros rest H; simpl in H.
  - by apply Hk.
  - destruct (accepts ic a c); [|by apply Hk].
    destruct (match_star ic a k s) as [r|] eqn:Hs; [|by apply Hk].
    injection H as ->. destruct (IH _ eq_refl) as [m ->].
    by exists (String c m).
Qed.

Lemma match_here_consumes ic r : consumes (match_here ic r).
Proof.
  induction r as [|[a q] r IH]; intros s rest H.
  - injection H as ->. by exists "".
  - destruct q; simpl in H.
    + destruct s as [|c s]; [done|]. destruct (accepts ic a c); [|done].
      destruct (IH _ _ H) as [m ->]. by exists (String c m).
    + destruct s as [|c s]; [by apply IH|].
      destruct (accepts ic a c); [|by apply IH].
      destruct (match_here ic r s) as [x|] eqn:Hs; [|by apply IH].
      injection H as ->. destruct (IH _ _ Hs) as [m ->]. by exists (String c m).
    + by apply (match_star_consumes ic a _ IH).
    + destruct s as [|c s]; [done|]. destruct (accepts ic a c); [|done].
      destruct (match_star_consumes ic a _ IH _ _ H) as [m ->].
      by exists (String c m).
Qed.

(** Each text [findall] returns is a match of the pattern at some place
    of the text, and is not empty. *)
Lemma findall_go_elem ic r skip s m :
  m ∈ findall_go ic r skip s →
  ∃ pre rest, s = pre +:+ m +:+ rest ∧ m ≠ "" ∧
              match_here ic r (m +:+ rest) = Some rest.
Proof.
  revert skip. induction s as [|c s IH]; intros skip H; simpl in H.
  { by apply elem_of_nil in H. }
  assert (∀ k, m ∈ findall_go ic r k s →
            ∃ pre rest, String c s = pre +:+ m +:+ rest ∧ m ≠ "" ∧
                        match_here ic r (m +:+ rest) = Some rest) as Hrec.
  { intros k Hk. destruct (IH _ Hk) as (pre & rest & -> & Hm & Hmatch).
    by exists (String c pre), rest. }
  destruct skip as [|k]; [|exact (Hrec _ H)].
  unfold match_length in H.
  destruct (match_here ic r (String c s)) as [rest|] eqn:Hmatch;
    [|exact (Hrec _ H)].
  cbn [mbind option_bind] in H.
  destruct (match_here_consumes _ _ _ _ Hmatch) as [x Hx].
  assert (String.length (String c s) - String.length rest = String.length x)
    as Hlen by (rewrite Hx, str_length_app; lia).
  rewrite Hlen in H.
  destruct x as [|c' x]; [exact (Hrec _ H)|].
  cbn [String.length] in H.
  apply elem_of_cons in H as [->|H]; [|exact (Hrec _ H)].
  rewrite str_app_cons in Hx. injection Hx as <- ->.
  cbn [String.substring]. rewrite ?substring_0_app.
  exists "", rest. by rewrite ?str_app_nil_l, ?str_app_cons.
Qed.

Lemma findall_occurs ic r s m :
  m ∈ findall ic r s → m ≠ "" ∧ ∃ i, occurs_at m s i.
Proof.
  intros (pre & rest & -> & Hm & _)%findall_go_elem. split; [done|].
  by exists (String.length pre), pre, rest.
Qed.

Lemma elem_of_citations (text c : string) :
  c ∈ citations text ↔
  ∃ pattern, pattern ∈ legislation_patterns ++ directive_patterns ∧
             c ∈ findall true pattern text.
Proof.
  unfold citations.
  generalize (legislation_patterns ++ directive_patterns). intros l.
  assert (∀ acc : gset string,
            c ∈ foldl (λ acc pattern,
                         acc ∪ list_to_set (findall true pattern text)) acc l
            ↔ c ∈ acc ∨ ∃ pattern, pattern ∈ l ∧ c ∈ findall true pattern text)
    as H.
  { induction l as [|p l IH]; intros acc; simpl.
    - split; [auto|]. intros [?|(? & []%elem_of_nil & _)]. done.
    - rewrite IH, elem_of_union, elem_of_list_to_set. split.
      + intros [[?|?]|(q & ? & ?)]; [by left| |].
        * right. exists p. split; [left|done].
        * right. exists q. split; [by right|done].
      + intros [?|(q & [->|?]%elem_of_cons & ?)]; [by left; left| |].
        * left. by right.
        * right. by exists q. }
  rewrite H. split; [|by right]. intros [[]%elem_of_empty|?]. done.
Qed.

Lemma str_app_inv_l (a b c : string) : a +:+ c = b +:+ c → a = b.
Proof.
  revert b. induction a as [|x a IH]; intros [|y b] H.
  - done.
  - apply (f_equal String.length) in H.
    rewrite str_app_nil_l, str_length_app in H. simpl in H. lia.
  - apply (f_equal String.length) in H.
    rewrite str_app_nil_l, str_length_app in H. simpl in H. lia.
  - rewrite !str_app_cons in H. injection H as -> H. f_equal. auto.
Qed.

(** A greedy repetition takes characters its atom accepts. *)
Lemma match_star_accepts ic a k s rest :
  match_star ic a k s = Some rest →
  ∃ ds s', s = ds +:+ s' ∧
           forallb (accepts ic a) (list_ascii_of_string ds) = true ∧
           k s' = Some rest.
Proof.
  revert rest. induction s as [|c s IH]; intros rest H; simpl in H.
  - by exists "", "".
  - destruct (accepts ic a c) eqn:Hc; [|by exists "", (String c s)].
    destruct (match_star ic a k s) as [r|] eqn:Hs;
      [|by exists "", (String c s)].
    injection H as ->. destruct (IH _ eq_refl) as (ds & s' & -> & Hds & Hk).
    exists (String c ds), s'. split; [done|]. split; [|done].
    simpl. by rewrite Hc, Hds.
Qed.

(** A pattern that begins with a word matches text that begins with that
    word, letter case ignored. *)
Lemma match_word (w : string) (r : regex) (s rest : string) :
  match_here true (word w ++ r) s = Some rest →
  ∃ pre s', s = pre +:+ s' ∧ lower_string pre = lower_string w ∧
            match_here true r s' = Some rest.
Proof.
  revert s. induction w as [|c w IH]; intros s H.
  - by exists "", s.
  - simpl in H. destruct s as [|x s]; [done|].
    case_bool_decide as Hx; [|done].
    destruct (IH _ H) as (pre & s' & -> & Hpre & Hr).
    exists (String x pre), s'. split; [done|]. split; [|done].
    simpl. by rewrite Hpre, Hx.
Qed.

Lemma accepted_last ic a (c : ascii) (ds : string) :
  accepts ic a c = true →
  forallb (accepts ic a) (list_ascii_of_string ds) = true →
  ∃ m ch, String c ds = m +:+ String ch "" ∧ accepts ic a ch = true.
Proof.
  revert c. induction ds as [|d ds IH]; intros c Hc Hds.
  - by exists "", c.
  - simpl in Hds. apply andb_true_iff in Hds as [Hd Hds].
    destruct (IH d Hd Hds) as (m & ch & -> & Hch).
    by exists (String c m), ch.
Qed.

(** A pattern that ends in a repeated atom matches text whose last
    character that atom accepts. *)
Lemma match_last ic a (r : regex) :
  last r = Some (a, Plus) →
  ∀ s rest, match_here ic r s = Some rest →
            ∃ m ch, s = m +:+ String ch rest ∧ accepts ic a ch = true.
Proof.
  induction r as [|[b q] r IH]; [done|]. intros Hlast s rest H.
  destruct r as [|y r].
  - injection Hlast as -> ->. simpl in H.
    destruct s as [|c s]; [done|]. destruct (accepts ic a c) eqn:Hc; [|done].
    apply match_star_accepts in H as (ds & s' & -> & Hds & Hk).
    injection Hk as ->.
    destruct (accepted_last ic a c ds Hc Hds) as (m & ch & Hm & Hch).
    exists m, ch. split; [|done].
    rewrite <- str_app_cons, Hm, str_app_assoc. done.
  - rewrite last_cons in Hlast.
    assert (last (y :: r) = Some (a, Plus)) as Hlast'
      by (destruct (last (y :: r)) eqn:Hl; [done|]; by apply last_None in Hl).
    specialize (IH Hlast'). clear Hlast Hlast'.
    remember (y :: r) as r' eqn:Hr'. clear Hr'.
    assert (∀ c s1, match_here ic r' s1 = Some rest →
              ∃ m ch, String c s1 = m +:+ String ch rest
                      ∧ accepts ic a ch = true) as Hcons.
    { intros c s1 H1. destruct (IH _ _ H1) as (m & ch & -> & Hch).
      by exists (String c m), ch. }
    assert (∀ s1, match_star ic b (match_here ic r') s1 = Some rest →
              ∃ m ch, s1 = m +:+ String ch rest ∧ accepts ic a ch = true)
      as Hstar.
    { intros s1 H1.
      apply match_star_accepts in H1 as (ds & s' & -> & _ & Hk).
      destruct (IH _ _ Hk) as (m & ch & -> & Hch).
      exists (ds +:+ m), ch. by rewrite str_app_assoc. }
    destruct q; cbn [match_here] in H.
    + destruct s as [|c s]; [done|]. destruct (accepts ic b c); [|done].
      by apply Hcons.
    + destruct s as [|c s]; [by apply IH|].
      destruct (accepts ic b c); [|by apply IH].
      destruct (match_here ic r' s) as [x|] eqn:Hs; [|by apply IH].
      injection H as ->. by apply Hcons.
    + by apply Hstar.
    + destruct s as [|c s]; [done|]. destruct (accepts ic b c); [|done].
      destruct (Hstar _ H) as (m & ch & -> & Hch).
      by exists (String c m), ch.
Qed.

(** What a match of a pattern that begins with the word [w] and ends in
    the repeated atom [a] looks like. *)
Lemma match_word_last (w : string) (r : regex) (a : atom) (c rest : string) :
  last (word w ++ r) = Some (a, Plus) →
  match_here true (word w ++ r) (c +:+ rest) = Some rest →
  begins_ignoring_case w c ∧ ends_in (accepts true a) c.
Proof.
  intros Hlast H. split.
  - destruct (match_word _ _ _ _ H) as (pre & s' & Hs & Hpre & Hr).
    destruct (match_here_consumes _ _ _ _ Hr) as [m ->].
    exists pre, m. split; [|done].
    apply (str_app_inv_l _ _ rest). by rewrite Hs, str_app_assoc.
  - destruct (match_last _ _ _ Hlast _ _ H) as (m & ch & Hs & Hch).
    exists m, ch. split; [|done].
    apply (str_app_inv_l _ _ rest). by rewrite Hs, str_app_assoc.
Qed.

Lemma citation_shape (text c : string) :
  c ∈ extract_regulatory_citations text →
  (∃ i, occurs_at c text i) ∧
  (∃ w, w ∈ citation_keywords ∧ begins_ignoring_case w c) ∧
  (ends_in is_digit c ∨
   (begins_ignoring_case "Directive" c ∧
    ends_in (λ ch, bool_decide (ch = "."%char)) c)).
Proof.
  unfold extract_regulatory_citations.
  intros (pattern & Hpattern & Hc)%elem_of_elements%elem_of_citations.
  split; [by eapply findall_occurs|].
  apply findall_go_elem in Hc as (pre & rest & _ & _ & Hmatch).
  unfold legislation_patterns, directive_patterns in Hpattern.
  cbn [app] in Hpattern.
  repeat (apply elem_of_cons in Hpattern as [->|Hpattern]);
    [..|by apply elem_of_nil in Hpattern].
  1-7: match type of Hmatch with
       | match_here true (word ?w ++ ?r) _ = _ =>
           destruct (match_word_last w r Digit c rest eq_refl Hmatch)
             as [Hbegin Hend];
           split; [exists w; split; [|done];
                   apply (bool_decide_unpack _); by vm_compute|by left]
       end.
  match type of Hmatch with
  | match_here true (word ?w ++ ?r) _ = _ =>
      destruct (match_word_last w r DigitDot c rest eq_refl Hmatch)
        as [Hbegin (m & ch & Hm & Hch)];
      split; [exists w; split; [|done];
              apply (bool_decide_unpack _); by vm_compute|]
  end.
  simpl in Hch. apply orb_true_iff in Hch as [Hch|Hch].
  - left. by exists m, ch.
  - right. split; [done|]. by exists m, ch.
Qed.

(** X10. Each citation [extract_regulatory_citations] returns stands in
    the text as it is returned; it begins, letter case ignored, with one of
    the words REDA, EPEA, OGCA, Pipeline, Water, Public and Directive; and
    it ends in a decimal digit, or else it is a directive citation and ends
    in a period. The period can be the one that ends the sentence: from
    "See Directive 056 s. 2.1." the citation "Directive 056 s. 2.1." is
    returned, period and all. *)
Theorem citations_shape (text : string) :
  Forall (λ c,
            (∃ i, occurs_at c text i) ∧
            (∃ w, w ∈ citation_keywords ∧ begins_ignoring_case w c) ∧
            (ends_in is_digit c ∨
             (begins_ignoring_case "Directive" c ∧
              ends_in (λ ch, bool_decide (ch = "."%char)) c)))
         (extract_regulatory_citations text) ∧
  "Directive 056 s. 2.1."
    ∈ extract_regulatory_citations "See Directive 056 s. 2.1." ∧
  ¬ ends_in is_digit "Directive 056 s. 2.1.".
Proof.
  split; [|split].
  - apply Forall_forall. intros c. apply citation_shape.
  - unfold extract_regulatory_citations.
    apply elem_of_elements, elem_of_citations.
    exists (word "Directive" ++ [(Space, Plus); (Lit "0", Opt); (Digit, Plus)]
            ++ [(Space, Plus); (Lit "s", One); (Lit ".", Opt); (Space, Star);
                (DigitDot, Plus)]).
    split.
    + apply elem_of_app. right. unfold directive_patterns. set_solver.
    + match goal with
      | |- _ ∈ ?l => let r := eval vm_compute in l in change l with r
      end.
      set_solver.
  - intros (m & ch & Hm & Hch).
    assert (ch = "."%char) as ->; [|done].
    clear Hch. revert Hm.
    do 21 (destruct m as [|? m];
           [rewrite ?str_app_cons, ?str_app_nil_l; intros [= ]; by subst|
            rewrite str_app_cons; intros [= <- Hm]; revert Hm]).
    destruct m; rewrite ?str_app_nil_l, ?str_app_cons; intros [= ].
Qed.

Lemma match_bracketed_number (s rest : string) :
  match_here false bracketed_number s = Some rest →
  ∃ ds, s = "[" +:+ ds +:+ "]" +:+ rest ∧ ds ≠ "" ∧ digits ds = true.
Proof.
  unfold bracketed_number. intros H. simpl in H.
  destruct s as [|c s]; [done|].
  case_bool_decide as Hc; [|done]. subst c.
  destruct s as [|d s]; [done|].
  destruct (is_digit d) eqn:Hd; [|done].
  apply match_star_accepts in H as (ds & s' & -> & Hds & Hk).
  destruct s' as [|c s']; [done|].
  case_bool_decide as Hc; [|done]. subst c. injection Hk as ->.
  exists (String d ds). split; [done|]. split; [done|].
  unfold digits. simpl. by rewrite Hd.
Qed.

Lemma substring_1_bracketed (ds : string) :
  String.substring 1 (String.length ("[" +:+ ds +:+ "]") - 2)
    ("[" +:+ ds +:+ "]") = ds.
Proof.
  rewrite str_app_cons, str_app_nil_l. cbn [String.length String.substring].
  rewrite str_length_app. cbn [String.length].
  replace (S (String.length ds + 1) - 2) with (String.length ds) by lia.
  apply substring_0_app.
Qed.

Lemma paragraph_number_elem (text n : string) :
  n ∈ extract_paragraph_numbers text →
  n ≠ "" ∧ digits n = true ∧ ∃ i, occurs_at ("[" +:+ n +:+ "]") text i.
Proof.
  unfold extract_paragraph_numbers. intros (m & -> & Hm)%list_elem_of_fmap.
  apply findall_go_elem in Hm as (pre & rest & -> & _ & Hmatch).
  apply match_bracketed_number in Hmatch as (ds & Hds & Hne & Hdig).
  assert (m = "[" +:+ ds +:+ "]") as ->.
  { apply (str_app_inv_l _ _ rest). by rewrite Hds, !str_app_assoc. }
  rewrite substring_1_bracketed. split; [done|]. split; [done|].
  by exists (String.length pre), pre, rest.
Qed.

(** X11. Each paragraph number [extract_paragraph_numbers] returns is a
    non-empty text of decimal digits that stands in the text between square
    brackets. *)
Theorem paragraph_numbers_are_digits (text : string) :
  Forall (λ n, n ≠ "" ∧ digits n = true ∧
               ∃ i, occurs_at ("[" +:+ n +:+ "]") text i)
         (extract_paragraph_numbers text).
Proof. apply Forall_forall. intros n. apply paragraph_number_elem. Qed.

End MatchSpec.

(** ** The fields of a chunk *)

Module PipelineSpec.
Import Re Ingest Search Trace Pipeline PyFacts SnippetSpec ChunkerSpec MatchSpec.

Lemma join_ne (sep : string) (l : list string) :
  l ≠ [] → Forall (λ u, u ≠ "") l → Py.join sep l ≠ "".
Proof.
  destruct l as [|x l]; [done|]. intros _ Hl.
  apply Forall_cons in Hl as [Hx _]. apply truthy_true.
  destruct l; [by apply truthy_true|].
  rewrite join_cons2, truthy_app. apply truthy_true in Hx. by rewrite Hx.
Qed.

Section fields.
Variable count_tokens : string → nat.
Variable chunk_size : Z.
Variable page_numbers : list Z.

Local Abbreviation tokens := (tokens count_tokens).
Local Abbreviation sent_step := (sent_step count_tokens chunk_size).
Local Abbreviation para_step := (para_step count_tokens chunk_size).
Local Abbreviation page_step := (page_step count_tokens chunk_size).
Local Abbreviation chunk_text := (chunk_text count_tokens chunk_size).
Local Abbreviation fields_inv := (fields_inv page_numbers).

Lemma tokens_nonneg (s : string) : (0 ≤ tokens s)%Z.
Proof. unfold Ingest.tokens. lia. Qed.

Lemma make_chunk_well_formed (st : State) (sep : string) :
  fields_inv st → current_chunk st ≠ [] →
  well_formed page_numbers (make_chunk st sep).
Proof.
  intros (_ & Hne & Hpage & _) Hcur. unfold well_formed, make_chunk. simpl.
  split; [by apply join_ne|]. split; [by apply Hpage|]. done.
Qed.

Lemma fields_flush (st : State) (sep : string) (seed : list string) (ct : Z) :
  fields_inv st → current_chunk st ≠ [] →
  Forall (λ u, u ≠ "") seed → (seed = [] → ct = 0%Z) → (0 ≤ ct)%Z →
  fields_inv {| chunks := chunks st ++ [make_chunk st sep];
                chunk_id := Ingest.chunk_id st + 1;
                current_chunk := seed;
                current_tokens := ct;
                current_page := current_page st |}.
Proof.
  intros Hinv Hcur Hseed Hct Hpos.
  pose proof (make_chunk_well_formed st sep Hinv Hcur) as Hwf.
  destruct Hinv as (Hchunks & Hne & Hpage & Htok & Htpos).
  split; [|split; [|split; [|split]]]; simpl; try done.
  - apply Forall_app. split; [done|]. by apply Forall_singleton.
  - intros _. by apply Hpage.
Qed.

Lemma fields_append (st : State) (x : string) (page_num : Z) :
  fields_inv st → x ≠ "" → page_num ∈ page_numbers →
  fields_inv {| chunks := chunks st; chunk_id := Ingest.chunk_id st;
                current_chunk := current_chunk st ++ [x];
                current_tokens := current_tokens st + tokens x;
                current_page := page_num |}.
Proof.
  intros (Hchunks & Hne & Hpage & Htok & Htpos) Hx Hp.
  split; [|split; [|split; [|split]]]; simpl; try done.
  - apply Forall_app. split; [done|]. by apply Forall_singleton.
  - intros H. by apply app_eq_nil in H as [_ ?].
  - pose proof (tokens_nonneg x). lia.
Qed.

Lemma sent_step_fields (page_num : Z) (st : State) (sent : string) :
  page_num ∈ page_numbers → sent ≠ "" →
  fields_inv st → fields_inv (sent_step page_num st sent).
Proof.
  intros Hp Hsent Hinv. unfold Ingest.sent_step.
  destruct ((chunk_size <? current_tokens st + tokens sent)%Z
            && nonempty (current_chunk st)) eqn:Hflush.
  - apply andb_true_iff in Hflush as [_ Hcur%nonempty_true].
    set (overlap_text := if bool_decide (2 ≤ length (current_chunk st))
                         then Py.join " " (last_n 2 (current_chunk st))
                         else "").
    apply (fields_append
             {| chunks := chunks st ++ [make_chunk st " "];
                chunk_id := Ingest.chunk_id st + 1;
                current_chunk := if Py.truthy overlap_text
                                 then [overlap_text] else [];
                current_tokens := if Py.truthy overlap_text
                                  then tokens overlap_text else 0;
                current_page := current_page st |}); [|done|done].
    apply fields_flush; [done|done|..].
    + destruct (Py.truthy overlap_text) eqn:Ht; [|done].
      apply Forall_singleton. by apply truthy_true.
    + by destruct (Py.truthy overlap_text).
    + destruct (Py.truthy overlap_text); [apply tokens_nonneg|done].
  - destruct st. by apply fields_append.
Qed.

Lemma sentences_fields (page_num : Z) (sents : list string) (st : State) :
  page_num ∈ page_numbers → Forall (λ s, s ≠ "") sents →
  fields_inv st → fields_inv (foldl (sent_step page_num) st sents).
Proof.
  intros Hp. revert st. induction sents as [|s sents IH]; intros st Hs Hinv.
  - done.
  - apply Forall_cons in Hs as [Hs Hsents]. simpl.
    apply IH; [done|]. by apply sent_step_fields.
Qed.

Lemma para_step_fields (page_num : Z) (st : State) (para : string) :
  page_num ∈ page_numbers →
  fields_inv st → fields_inv (para_step page_num st para).
Proof.
  intros Hp Hinv. unfold Ingest.para_step.
  destruct (Py.truthy (Py.strip para)) eqn:Hpara; [|done]. simpl.
  apply truthy_true in Hpara.
  destruct (Z.ltb_spec chunk_size (tokens (Py.strip para))) as [Hbig|Hsmall].
  - apply sentences_fields; [done|by apply split_sentences_nonempty|].
    destruct (nonempty (current_chunk st)) eqn:Hcur; [|done].
    apply nonempty_true in Hcur. by apply fields_flush.
  - destruct (Z.ltb_spec chunk_size
                (current_tokens st + tokens (Py.strip para))) as [Hfull|Hfits].
    + assert (current_chunk st ≠ []) as Hcur.
      { intros Hnil. destruct Hinv as (_ & _ & _ & Htok & _).
        rewrite (Htok Hnil) in Hfull. lia. }
      assert (nonempty (current_chunk st) = true) as -> by by apply nonempty_true.
      pose proof (fields_flush st Py.LFLF
                    (last_n 1 (current_chunk st) ++ [Py.strip para])
                    (foldr (λ p acc, tokens p + acc)%Z 0%Z
                       (last_n 1 (current_chunk st) ++ [Py.strip para]))
                    Hinv Hcur) as Hflush.
      destruct Hflush as (H1 & H2 & H3 & H4 & H5).
      * apply Forall_app. split; [|by apply Forall_singleton].
        destruct Hinv as (_ & Hne & _). by apply Forall_drop.
      * intros H. by apply app_eq_nil in H as [_ ?].
      * generalize (last_n 1 (current_chunk st) ++ [Py.strip para]).
        intros l. induction l as [|x l IH]; simpl; [done|].
        pose proof (tokens_nonneg x). lia.
      * split; [done|]. split; [done|]. split; [|done].
        intros _. done.
    + destruct st. by apply fields_append.
Qed.

Lemma paragraphs_fields (page_num : Z) (paras : list string) (st : State) :
  page_num ∈ page_numbers →
  fields_inv st → fields_inv (foldl (para_step page_num) st paras).
Proof.
  intros Hp. revert st. induction paras as [|p paras IH]; intros st Hinv.
  - done.
  - simpl. apply IH. by apply para_step_fields.
Qed.

Lemma pages_fields (pages : list Page.t) (st : State) :
  Forall (λ page, Page.page_number page ∈ page_numbers) pages →
  fields_inv st → fields_inv (foldl page_step st pages).
Proof.
  revert st. induction pages as [|page pages IH]; intros st Hp Hinv.
  - done.
  - apply Forall_cons in Hp as [Hpage Hpages]. simpl.
    apply IH; [done|]. by apply paragraphs_fields.
Qed.

Lemma fields_init : fields_inv init.
Proof.
  split; [|split; [|split; [|split]]]; simpl; by try constructor.
Qed.

End fields.

Lemma chunk_text_well_formed count_tokens chunk_size
    (pages : list Page.t) (overlap : Z) :
  Forall (well_formed (map Page.page_number pages))
         (chunk_text count_tokens chunk_size pages overlap).
Proof.
  unfold chunk_text.
  pose proof (pages_fields count_tokens chunk_size
                (map Page.page_number pages) pages init) as Hinv.
  destruct Hinv as (Hchunks & Hrest).
  { apply Forall_forall. intros page Hpage. apply list_elem_of_fmap. eauto. }
  { apply fields_init. }
  destruct (nonempty _) eqn:Hcur; [|done].
  apply nonempty_true in Hcur. apply Forall_app. split; [done|].
  apply Forall_singleton. by apply make_chunk_well_formed.
Qed.

(** X13. Every chunk [chunk_text] returns has a content that is not
    empty and the page number of one of the input pages; its paragraph
    number is the first bracketed number of its own content, if there is
    one, a text of digits; and its citations are those of its own content,
    pairwise distinct, each standing in the content. *)
Theorem chunk_fields count_tokens chunk_size
    (pages : list Page.t) (overlap : Z) :
  Forall
    (λ c,
       Chunk.content c ≠ "" ∧
       (∃ page, page ∈ pages ∧ Chunk.page_number c = Page.page_number page) ∧
       Chunk.paragraph_number c
         = head (extract_paragraph_numbers (Chunk.content c)) ∧
       (∀ n, Chunk.paragraph_number c = Some n →
             digits n = true ∧
             ∃ i, occurs_at ("[" +:+ n +:+ "]") (Chunk.content c) i) ∧
       Chunk.regulatory_citations c
         = extract_regulatory_citations (Chunk.content c) ∧
       NoDup (Chunk.regulatory_citations c) ∧
       (∀ cit, cit ∈ Chunk.regulatory_citations c →
               ∃ i, occurs_at cit (Chunk.content c) i))
    (chunk_text count_tokens chunk_size pages overlap).
Proof.
  eapply Forall_impl; [apply chunk_text_well_formed|].
  intros c (Hcontent & Hpage & Hpara & Hcit). split; [done|].
  split.
  { apply list_elem_of_fmap in Hpage as (page & ? & ?). by exists page. }
  split; [done|]. split.
  { intros n Hn. rewrite Hpara in Hn. apply head_Some_elem_of in Hn.
    by destruct (paragraph_number_elem _ _ Hn) as (_ & ? & ?). }
  split; [done|]. rewrite Hcit. unfold extract_regulatory_citations.
  split; [apply NoDup_elements|].
  intros cit (pattern & _ & Hc)%elem_of_elements%elem_of_citations.
  by eapply findall_occurs.
Qed.

Lemma str_app_nil (a b : string) : a +:+ b = "" → a = "" ∧ b = "".
Proof. destruct a; [by rewrite str_app_nil_l|by rewrite str_app_cons]. Qed.

Lemma normalize_join_nil (l : list string) :
  normalize (Py.join "" l) = "" ↔ Forall (λ s, normalize s = "") l.
Proof.
  induction l as [|x l IH].
  - split; [constructor|done].
  - rewrite join_empty_cons, normalize_app, Forall_cons, <- IH. split.
    + by intros ?%str_app_nil.
    + intros [-> ->]. done.
Qed.

Lemma lstrip_head (s : string) (c : ascii) (r : string) :
  Py.lstrip s = String c r → Py.isspace c = false.
Proof.
  induction s as [|x s IH]; [done|]. simpl.
  destruct (Py.isspace x) eqn:Hx; [done|]. by intros [= <- _].
Qed.

Lemma rstrip_head (c : ascii) (s : string) :
  Py.isspace c = false → ∃ r, Py.rstrip (String c s) = String c r.
Proof.
  intros Hc. simpl. destruct (Py.rstrip s); rewrite ?Hc; eauto.
Qed.

(** A text is blank, all whitespace, exactly when stripping it leaves
    nothing. *)
Lemma strip_blank (s : string) : Py.strip s = "" ↔ normalize s = "".
Proof.
  split.
  - intros H. by rewrite <- normalize_strip, H.
  - intros H. unfold Py.strip.
    destruct (Py.lstrip s) as [|c r] eqn:Hl; [done|].
    pose proof (lstrip_head _ _ _ Hl) as Hc.
    destruct (rstrip_head c r Hc) as [r' Hr].
    rewrite <- normalize_strip in H. unfold Py.strip in H.
    rewrite Hl, Hr in H. simpl in H. by rewrite Hc in H.
Qed.

Section blank.
Variable count_tokens : string → nat.
Variable chunk_size : Z.

Lemma blank_page_step (st : State) (page : Page.t) :
  normalize (Page.text page) = "" →
  page_step count_tokens chunk_size st page = st.
Proof.
  intros Hblank. unfold page_step.
  rewrite <- normalize_split_paragraphs in Hblank.
  apply normalize_join_nil in Hblank.
  induction Hblank as [|para paras Hpara _ IH]; [done|].
  simpl. unfold para_step at 2.
  apply strip_blank in Hpara. by rewrite Hpara.
Qed.

Lemma chunks_nil_blank (pages : list Page.t) (overlap : Z) :
  chunk_text count_tokens chunk_size pages overlap = [] →
  Forall (λ page, normalize (Page.text page) = "") pages.
Proof.
  intros Hnil.
  destruct (chunk_text_trace count_tokens chunk_size pages overlap)
    as (ps & Hcontents & _ & _ & Hunits & _).
  rewrite Hnil in Hcontents. symmetry in Hcontents.
  apply fmap_nil_inv in Hcontents. subst ps. simpl in Hunits.
  pose proof (normalize_all_units count_tokens chunk_size pages) as Hnorm.
  rewrite <- Hunits in Hnorm. symmetry in Hnorm.
  apply normalize_join_nil in Hnorm. by apply Forall_fmap in Hnorm.
Qed.

Lemma blank_chunks_nil (pages : list Page.t) (overlap : Z) :
  Forall (λ page, normalize (Page.text page) = "") pages →
  chunk_text count_tokens chunk_size pages overlap = [].
Proof.
  intros Hblank. unfold chunk_text.
  assert (foldl (page_step count_tokens chunk_size) init pages = init) as ->;
    [|done].
  generalize init. induction Hblank as [|page pages Hpage _ IH]; [done|].
  intros st. simpl. by rewrite blank_page_step.
Qed.

(** X12. [chunk_text] returns no chunk exactly when every page is blank,
    its text holding whitespace only; this for every tokenizer and every
    [chunk_size]. *)
Theorem no_chunks_iff_blank (pages : list Page.t) (overlap : Z) :
  chunk_text count_tokens chunk_size pages overlap = [] ↔
  Forall (λ page, normalize (Page.text page) = "") pages.
Proof. split; [apply chunks_nil_blank|apply blank_chunks_nil]. Qed.

End blank.

End PipelineSpec.

(** ** Extraction, batches and index documents *)

Module ProcessSpec.
Import Re Ingest Search Trace Pipeline PyFacts SnippetSpec ChunkerSpec
  MatchSpec PipelineSpec.

Lemma extract_pages_spec (results : list extracted) :
  ∀ i : Z,
    Forall (λ p, Py.strip (Page.text p) ≠ "" ∧
                 ∃ k, results !! k = Some (Text (Some (Page.text p))) ∧
                      Page.page_number p = (i + Z.of_nat k + 1)%Z)
           (extract_pages i results).
Proof.
  induction results as [|[|t] results IH]; intros i; simpl; [done..|].
  assert (Forall (λ p, Py.strip (Page.text p) ≠ "" ∧
                       ∃ k, (Text t :: results) !! k
                            = Some (Text (Some (Page.text p))) ∧
                            Page.page_number p = (i + Z.of_nat k + 1)%Z)
                 (extract_pages (i + 1) results)) as Hrest.
  { eapply Forall_impl; [apply IH|].
    intros p (Hp & k & Hk & Hn). split; [done|]. exists (S k).
    split; [done|]. lia. }
  destruct (Py.truthy (Py.strip _)) eqn:Htext; [|done].
  apply Forall_cons. split; [|done]. simpl. split; [by apply truthy_true|].
  exists 0. split; [|simpl; lia]. simpl.
  destruct t as [s|]; [|done]. by destruct (Py.truthy s).
Qed.

Lemma extract_pages_sorted (results : list extracted) :
  ∀ i : Z,
    Forall (λ p, (i < Page.page_number p)%Z) (extract_pages i results) ∧
    StronglySorted Z.lt (map Page.page_number (extract_pages i results)).
Proof.
  induction results as [|[|t] results IH]; intros i; simpl;
    [by split; constructor..|].
  destruct (IH (i + 1)%Z) as [Hlt Hsorted].
  assert (Forall (λ p, (i < Page.page_number p)%Z)
                 (extract_pages (i + 1) results)) as Hlt'
    by (eapply Forall_impl; [exact Hlt|]; simpl; intros; lia).
  destruct (Py.truthy (Py.strip _)); [|done].
  split.
  - apply Forall_cons. split; [simpl; lia|done].
  - simpl. constructor; [done|]. by apply Forall_fmap.
Qed.

Lemma extract_pages_elem (results : list extracted) :
  ∀ (i : Z) (p : Page.t),
    p ∈ extract_pages i results ↔
    ∃ k, results !! k = Some (Text (Some (Page.text p))) ∧
         Page.page_number p = (i + Z.of_nat k + 1)%Z ∧
         Py.strip (Page.text p) ≠ "" ∧
         ∀ j, j < k → results !! j ≠ Some Raised.
Proof.
  induction results as [|[|t] results IH]; intros i p; simpl.
  - split; [by intros ?%elem_of_nil|]. by intros (k & ? & _).
  - split; [by intros ?%elem_of_nil|]. intros ([|k] & Hk & _ & _ & Hj).
    + done.
    + by destruct (Hj 0 ltac:(lia)).
  - assert (p ∈ extract_pages (i + 1) results ↔
            ∃ k, (Text t :: results) !! S k = Some (Text (Some (Page.text p))) ∧
                 Page.page_number p = (i + Z.of_nat (S k) + 1)%Z ∧
                 Py.strip (Page.text p) ≠ "" ∧
                 ∀ j, j < S k → (Text t :: results) !! j ≠ Some Raised) as Hrest.
    { rewrite IH. split; intros (k & Hk & Hn & Hs & Hj); exists k.
      - split; [done|]. split; [lia|]. split; [done|].
        intros [|j] Hlt; [done|]. apply Hj. lia.
      - split; [done|]. split; [lia|]. split; [done|].
        intros j Hlt. apply (Hj (S j)). lia. }
    set (text := match t with
                 | Some s => if Py.truthy s then s else ""
                 | None => ""
                 end).
    assert (∀ s, t = Some s → Py.strip s ≠ "" → text = s) as Htext.
    { intros s -> Hs. subst text. simpl. destruct s; [done|done]. }
    destruct (Py.truthy (Py.strip text)) eqn:Hblank.
    + rewrite elem_of_cons, Hrest. split.
      * intros [->|(k & H)]; [|by exists (S k)].
        exists 0. simpl. apply truthy_true in Hblank.
        split; [|split; [lia|split; [done|intros; lia]]].
        subst text. destruct t as [s|]; [|done].
        by destruct (Py.truthy s).
      * intros ([|k] & Hk & Hn & Hs & Hj); [|right; by exists k].
        left. simpl in Hk. injection Hk as Hk.
        rewrite (Htext _ Hk Hs). destruct p as [n x]. simpl in *.
        f_equal. lia.
    + rewrite Hrest. split; [intros (k & H); by exists (S k)|].
      intros ([|k] & Hk & Hn & Hs & Hj); [|by exists k].
      simpl in Hk. injection Hk as Hk.
      rewrite (Htext _ Hk Hs) in Hblank.
      apply truthy_true in Hs. congruence.
Qed.

(** X14. [extract_text_from_pdf] returns nothing when the reader raises.
    Otherwise it returns, in the order of the PDF, exactly the pages whose
    text is not blank and that stand before the first page on which
    [extract_text] raises, each with its text and numbered by its position
    in the PDF, counted from 1, blank pages included; the page numbers
    increase strictly. *)
Theorem extracted_pages_numbered (reader : option (list extracted)) :
  let pages := extract_text_from_pdf reader in
  (reader = None → pages = []) ∧
  (∀ results, reader = Some results →
     ∀ p, p ∈ pages ↔
          ∃ k, results !! k = Some (Text (Some (Page.text p))) ∧
               Page.page_number p = (Z.of_nat k + 1)%Z ∧
               normalize (Page.text p) ≠ "" ∧
               ∀ j, j < k → results !! j ≠ Some Raised) ∧
  StronglySorted Z.lt (map Page.page_number pages).
Proof.
  split; [by intros ->|]. split.
  - intros results -> p. simpl. rewrite extract_pages_elem.
    split; intros (k & Hk & Hn & Hs & Hj); exists k;
      (split; [done|]; split; [lia|]; split; [|done]).
    + by rewrite <- strip_blank.
    + by rewrite strip_blank.
  - destruct reader as [results|]; simpl; [|constructor].
    apply extract_pages_sorted.
Qed.

Section process.
Variable count_tokens : string → nat.
Variables CHUNK_SIZE CHUNK_OVERLAP : Z.

(** X15. [process_document] fails for want of text exactly when no page
    was extracted, and never for want of chunks: the pages extracted are
    not blank, so [chunk_text] returns a chunk, whatever the tokenizer and
    the chunk size. *)
Theorem process_document_never_without_chunks
    (reader : option (list extracted)) :
  match process_document count_tokens CHUNK_SIZE CHUNK_OVERLAP reader with
  | Failed reason =>
      reason = "no text" ∧ extract_text_from_pdf reader = []
  | Chunked pages chunks =>
      pages = extract_text_from_pdf reader ∧ pages ≠ [] ∧
      chunks = chunk_text count_tokens CHUNK_SIZE pages CHUNK_OVERLAP ∧
      chunks ≠ []
  end.
Proof.
  unfold process_document.
  destruct (extract_text_from_pdf reader) as [|p pages] eqn:Hpages; [done|].
  simpl negb. cbn [nonempty negb].
  destruct (chunk_text count_tokens CHUNK_SIZE (p :: pages) CHUNK_OVERLAP)
    as [|c cs] eqn:Hchunks; [|done].
  exfalso. apply chunks_nil_blank in Hchunks.
  apply Forall_cons in Hchunks as [Hblank _].
  assert (p ∈ extract_text_from_pdf reader) as Hp by (rewrite Hpages; left).
  destruct reader as [results|]; [|by apply elem_of_nil in Hp].
  pose proof (extract_pages_spec results 0) as Hall.
  rewrite Forall_forall in Hall. destruct (Hall _ Hp) as [Hne _].
  by apply Hne, strip_blank.
Qed.

End process.

(** *** Batches *)

Lemma range_from_lookup (step : nat) (n : nat) :
  0 < step →
  ∀ fuel i k, n ≤ fuel + i →
    range_from fuel i n step !! k
    = if i + k * step <? n then Some (i + k * step) else None.
Proof.
  intros Hstep. induction fuel as [|fuel IH]; intros i k Hfuel.
  - simpl. destruct (Nat.ltb_spec (i + k * step) n); [lia|done].
  - simpl. destruct (Nat.ltb_spec i n) as [Hi|Hi].
    + destruct k as [|k]; simpl.
      * rewrite Nat.add_0_r. by destruct (Nat.ltb_spec i n); [|lia].
      * rewrite IH by lia. by replace (i + step + k * step)
          with (i + (step + k * step)) by lia.
    + destruct (Nat.ltb_spec (i + k * step) n); [lia|done].
Qed.

Lemma range_from_concat {A} (l : list A) (step : nat) :
  0 < step →
  ∀ fuel i, length l ≤ fuel + i →
    concat (map (λ j, slice l j (j + step))
                (range_from fuel i (length l) step))
    = drop i l.
Proof.
  intros Hstep. induction fuel as [|fuel IH]; intros i Hfuel.
  - simpl. by rewrite drop_ge by lia.
  - simpl. destruct (Nat.ltb_spec i (length l)) as [Hi|Hi].
    + simpl. rewrite IH by lia. unfold slice.
      replace (i + step - i) with step by lia.
      by rewrite <- drop_drop, take_drop.
    + simpl. by rewrite drop_ge by lia.
Qed.

Lemma range_from_bound (n step : nat) :
  ∀ fuel i, Forall (λ j, j < n) (range_from fuel i n step).
Proof.
  induction fuel as [|fuel IH]; intros i; simpl; [done|].
  destruct (Nat.ltb_spec i n); [|done]. by constructor.
Qed.

Lemma batches_positive {A} (l : list A) (batch_size : Z) :
  (0 < batch_size)%Z →
  ∃ bs, batches l batch_size = Some bs ∧
        concat bs = l ∧
        Forall (λ b, 0 < length b ≤ Z.to_nat batch_size) bs ∧
        ∀ k, bs !! k
             = if k * Z.to_nat batch_size <? length l
               then Some (take (Z.to_nat batch_size)
                            (drop (k * Z.to_nat batch_size) l))
               else None.
Proof.
  unfold batches, range.
  intros Hpos. destruct (Z.eqb_spec batch_size 0); [lia|].
  destruct (Z.ltb_spec batch_size 0); [lia|].
  set (step := Z.to_nat batch_size). assert (0 < step) as Hstep by lia.
  eexists. split; [done|]. split; [|split].
  - rewrite range_from_concat by (done || lia). apply drop_0.
  - apply Forall_fmap. eapply Forall_impl; [apply range_from_bound|].
    intros j Hj. simpl in *. unfold slice.
    rewrite length_take, length_drop. subst step. lia.
  - intros k. rewrite list_lookup_fmap, range_from_lookup by (done || lia).
    simpl. destruct (Nat.ltb_spec (k * step) (length l)); [|done].
    simpl. unfold slice. do 2 f_equal. lia.
Qed.

(** X16. The batches of the loops of [generate_embeddings] and
    [index_chunks]. A [batch_size] of zero raises, and a negative one gives
    no batch, so that nothing is embedded or uploaded. For a positive one
    the batches, joined in order, are the list: none is empty, none holds
    more than [batch_size] items, and batch [k] is the [batch_size] items
    from index [k * batch_size] on. *)
Theorem batches_partition {A} (l : list A) (batch_size : Z) :
  (batch_size = 0%Z → batches l batch_size = None) ∧
  ((batch_size < 0)%Z → batches l batch_size = Some []) ∧
  ((0 < batch_size)%Z →
   ∃ bs, batches l batch_size = Some bs ∧
         concat bs = l ∧
         Forall (λ b, 0 < length b ≤ Z.to_nat batch_size) bs ∧
         ∀ k, bs !! k
              = if k * Z.to_nat batch_size <? length l
                then Some (take (Z.to_nat batch_size)
                             (drop (k * Z.to_nat batch_size) l))
                else None).
Proof.
  split; [by intros ->|]. split; [|apply batches_positive].
  unfold batches, range.
  intros Hneg. destruct (Z.eqb_spec batch_size 0); [lia|].
  by destruct (Z.ltb_spec batch_size 0); [|lia].
Qed.

(** X17. With a positive [batch_size] and a service that answers each
    batch with the embeddings of its texts in order, [generate_embeddings]
    returns one embedding for each text, in the order of the texts. *)
Theorem embeddings_follow_texts {E} (create : list string → list E)
    (f : string → E) (texts : list string) (batch_size : Z) :
  (0 < batch_size)%Z →
  (∀ batch, batch ≠ [] → length batch ≤ Z.to_nat batch_size →
            create batch = map f batch) →
  generate_embeddings create texts batch_size = Some (map f texts).
Proof.
  intros Hpos Hcreate. unfold generate_embeddings.
  destruct (batches_positive texts batch_size Hpos)
    as (bs & -> & Hconcat & Hbs & _).
  simpl. f_equal. rewrite <- Hconcat. clear Hconcat.
  induction Hbs as [|b bs [Hb1 Hb2] _ IH]; [done|].
  simpl. rewrite fmap_app, IH. f_equal. apply Hcreate; [|done].
  by destruct b; [simpl in Hb1; lia|].
Qed.

(** Three texts in batches of two, with the length of a text for its
    embedding. *)
Lemma embeddings_follow_texts_witness :
  generate_embeddings (map String.length) ["a"; "bc"; "def"] 2
  = Some [1; 2; 3].
Proof.
  apply (embeddings_follow_texts (map String.length) String.length
           ["a"; "bc"; "def"] 2); [lia|done].
Defined.

(** *** Index documents *)

Lemma zip_fst_take {A B} (l : list A) (k : list B) :
  (zip l k).*1 = take (length k) l.
Proof.
  revert k. induction l as [|x l IH]; intros [|y k]; simpl; [done..|].
  by rewrite IH.
Qed.

Lemma index_id_inj (document_id : string) :
  Inj (=) (=) (λ n : Z, document_id +:+ "-" +:+ str n).
Proof.
  intros m n H. apply str_app_inv_r in H.
  rewrite !str_app_cons, !str_app_nil_l in H. injection H as H.
  by apply (inj pretty).
Qed.

Lemma chunk_ids_seq count_tokens chunk_size (pages : list Page.t)
    (overlap : Z) :
  map Chunk.chunk_id (chunk_text count_tokens chunk_size pages overlap)
  = Z.of_nat <$> seq 0 (length (chunk_text count_tokens chunk_size pages
                                  overlap)).
Proof.
  destruct (chunk_text_trace count_tokens chunk_size pages overlap)
    as (ps & Hcontents & Hids & _).
  rewrite Hids. do 2 f_equal.
  apply (f_equal length) in Hcontents. by rewrite !length_fmap in Hcontents.
Qed.

(** X18. The [id]s [index_chunks] gives the chunks of one document of
    [chunk_text] are pairwise distinct: the [k]-th is the document id, a
    dash and [k] in decimal. There are as many as the shorter of the chunks
    and the embeddings: [zip] drops the chunks that have no embedding. *)
Theorem index_ids_distinct {E} count_tokens chunk_size
    (pages : list Page.t) (overlap : Z) (document_id : string)
    (embeddings : list E) :
  let chunks := chunk_text count_tokens chunk_size pages overlap in
  let ids := index_ids document_id chunks embeddings in
  NoDup ids ∧
  length ids = length chunks `min` length embeddings ∧
  ∀ k, k < length chunks `min` length embeddings →
       ids !! k = Some (document_id +:+ "-" +:+ str (Z.of_nat k)).
Proof.
  intros chunks ids.
  assert (ids = (λ n : Z, document_id +:+ "-" +:+ str n)
                <$> take (length embeddings) (Z.of_nat <$> seq 0 (length chunks)))
    as Hids.
  { subst ids chunks. unfold index_ids, index_id.
    rewrite <- (chunk_ids_seq count_tokens chunk_size pages overlap).
    rewrite <- fmap_take, <- zip_fst_take.
    by rewrite <- !list_fmap_compose. }
  rewrite Hids. split; [|split].
  - pose proof (index_id_inj document_id) as Hinj.
    apply (NoDup_fmap_2 _).
    eapply sublist_NoDup; [|apply sublist_take].
    apply (NoDup_fmap_2 _), NoDup_seq.
  - rewrite length_fmap, length_take, length_fmap, length_seq. lia.
  - intros k Hk. rewrite list_lookup_fmap, lookup_take_lt by lia.
    rewrite list_lookup_fmap, lookup_seq_lt by lia. done.
Qed.

End ProcessSpec.
